(** * The drain scheduling engine of draino

    A shallow embedding of [internal/kubernetes/drainSchedule.go]: the
    [DrainSchedules] engine, its per-node [schedule] objects and the
    callback run by each schedule's timer, followed by the properties of
    the engine that the specification states.

    Modelling choices, all made to follow the Go source:
    - a [time.Time] is an instant on one time line, counted in nanoseconds
      from Go's zero time, so [IsZero] is "equal to 0" and [Add] is addition;
      wall-clock and monotonic readings are not told apart and the range of
      the time package is not bounded;
    - the map [schedules] holds pointers: it maps a node name to the address
      of a [schedule] object in a [store]; a timer callback keeps the
      address of its own object and writes to it whether or not the map
      still refers to it;
    - a method is a function in a state monad over the [World]; the result
      [None] stands for a nil-pointer panic, which [no_panic] rules out;
    - what the engine cannot decide itself is an argument of the method:
      the reading of the clock, the result of [Drainer.Drain] and the result
      of [RetryWithTimeout] around [Drainer.MarkDrain];
    - the calls made on the logger, the event recorder, the statistics and
      the drainer are appended, in program order, to a [trace]. *)

From stdpp Require Import gmap strings list fin_maps.
From Stdlib Require Import ZArith Lia.

Local Open Scope Z_scope.

(** ** The part of Go's [time] package the engine uses *)

Module time.

Definition Duration : Type := Z.
Definition Time : Type := Z.

Definition Nanosecond : Duration := 1.
Definition Millisecond : Duration := 1000000 * Nanosecond.
Definition Second : Duration := 1000 * Millisecond.

(** [time.Time{}] *)
Definition zero : Time := 0.

Definition Add (t : Time) (d : Duration) : Time := t + d.
Definition Before (t u : Time) : bool := t <? u.
Definition IsZero (t : Time) : bool := t =? 0.

End time.

(** ** Constants *)

Definition SetConditionTimeout : time.Duration := 10 * time.Second.
Definition SetConditionRetryPeriod : time.Duration := 50 * time.Millisecond.

(** ** Errors

    A Go [error] is an interface value: [nil] or a value of some dynamic
    type.  The engine only ever asks whether that type is
    [*AlreadyScheduledError]. *)

Inductive errorValue : Type :=
| AlreadyScheduledError (msg : string)
| OtherError (msg : string).

Definition error : Type := option errorValue.

Definition NewAlreadyScheduledError : error :=
  Some (AlreadyScheduledError "drain schedule is already planned for that node").

Definition IsAlreadyScheduledError (err : error) : bool :=
  match err with
  | Some (AlreadyScheduledError _) => true
  | _ => false
  end.

(** [err.Error()], which is what the verb [%v] prints for an error. *)
Definition errorText (err : errorValue) : string :=
  match err with
  | AlreadyScheduledError msg => msg
  | OtherError msg => msg
  end.

(** ** Data model *)

(** Address of a [schedule] object. *)
Abbreviation addr := nat (only parsing).

Inductive timerState : Type :=
| TimerArmed      (* created by [time.AfterFunc], not fired yet *)
| TimerStopped    (* [Stop] was called before it fired *)
| TimerFired.     (* it fired: the callback has been started *)

Global Instance timerState_eq_dec : EqDecision timerState.
Proof. solve_decision. Defined.

(** A [*time.Timer] made by [time.AfterFunc]: its state and the variables
    [node] and [when] captured by the function it runs (the third captured
    variable, [sched], is the object holding the timer). *)
Record Timer : Type := mkTimer {
  tstate : timerState;
  fnode : string;
  fwhen : time.Time
}.

(** [timer.Stop()]: prevents the firing of an armed timer, and does nothing
    to a timer that has fired or was stopped. *)
Definition Stop (t : Timer) : Timer :=
  match tstate t with
  | TimerArmed => mkTimer TimerStopped (fnode t) (fwhen t)
  | _ => t
  end.

Record schedule : Type := mkSchedule {
  when : time.Time;
  failed : Z;          (* int32, written with atomic.StoreInt32 *)
  finish : time.Time;
  timer : Timer
}.

Record DrainSchedules : Type := mkDrainSchedules {
  schedules : gmap string addr;
  lastDrainScheduledFor : time.Time;
  period : time.Duration
}.

Inductive eventReason : Type :=
| eventReasonDrainStarting
| eventReasonDrainSucceeded
| eventReasonDrainFailed.

Inductive tagResult : Type :=
| tagResultSucceeded
| tagResultFailed.

Inductive logLevel : Type := Info | Warn | Error.

(** The calls the engine makes on its collaborators.  [CallMarkDrain]
    stands for one [RetryWithTimeout] around [Drainer.MarkDrain], whatever
    the number of attempts, with the arguments given to [MarkDrain].  [Log]
    carries the text handed to the logger; [Event] carries the message of
    [Event], and for [Eventf] the format it is given. *)
Inductive effect : Type :=
| Log (level : logLevel) (msg : string)
| Event (reason : eventReason) (msg : string)
| StatNodesDrained (result : tagResult)
| CallDrain (node : string)
| CallMarkDrain (node : string) (scheduledAt finishedAt : time.Time) (isFailed : bool).

Record World : Type := mkWorld {
  eng : DrainSchedules;          (* the fields of [d] the methods read and write *)
  store : list schedule;         (* the [schedule] objects, by address *)
  trace : list effect
}.

(** The engine state proper: the map, the objects it points to and
    [lastDrainScheduledFor] (with the immutable [period]). *)
Definition engineState (w : World) : DrainSchedules * list schedule :=
  (eng w, store w).

(** ** The state monad of the methods *)

Definition M (A : Type) : Type := World → option (A * World).

Global Instance M_ret : MRet M := λ A x w, Some (x, w).
Global Instance M_bind : MBind M := λ A B f c w,
  match c w with
  | Some (x, w') => f x w'
  | None => None
  end.

Definition getWorld : M World := λ w, Some (w, w).
Definition putWorld (w : World) : M unit := λ _, Some (tt, w).
Definition panic {A : Type} : M A := λ _, None.

Definition getEngine : M DrainSchedules :=
  w ← getWorld; mret (eng w).

Definition putEngine (d : DrainSchedules) : M unit :=
  w ← getWorld; putWorld (mkWorld d (store w) (trace w)).

Definition emit (e : effect) : M unit :=
  w ← getWorld; putWorld (mkWorld (eng w) (store w) (trace w ++ [e])).

(** Reading through a [*schedule]. *)
Definition load (p : addr) : M schedule :=
  w ← getWorld;
  match store w !! p with
  | Some s => mret s
  | None => panic
  end.

(** Writing through a [*schedule]. *)
Definition modify (p : addr) (f : schedule → schedule) : M unit :=
  s ← load p;
  w ← getWorld;
  putWorld (mkWorld (eng w) (<[p := f s]> (store w)) (trace w)).

(** [&schedule{...}] *)
Definition alloc (s : schedule) : M addr :=
  w ← getWorld;
  putWorld (mkWorld (eng w) (store w ++ [s]) (trace w));;
  mret (length (store w)).

(** ** The schedule object *)

Definition setFailed (p : addr) : M unit :=
  modify p (λ s, mkSchedule (when s) 1 (finish s) (timer s)).

Definition isFailed (s : schedule) : bool := failed s =? 1.

Definition setFinish (p : addr) (t : time.Time) : M unit :=
  modify p (λ s, mkSchedule (when s) (failed s) t (timer s)).

Definition setTimer (p : addr) (t : Timer) : M unit :=
  modify p (λ s, mkSchedule (when s) (failed s) (finish s) t).

(** ** The engine *)

Definition NewDrainSchedules (period : time.Duration) : World :=
  mkWorld (mkDrainSchedules ∅ time.zero period) [] [].

Definition IsScheduledByOldEvent (name : string) (transitionTime : time.Time) : M bool :=
  d ← getEngine;
  match schedules d !! name with
  | None => mret false
  | Some p =>
      sched ← load p;
      mret (time.Before (when sched) transitionTime
            && negb (isFailed sched)
            && negb (time.IsZero (finish sched)))
  end.

Definition HasSchedule (name : string) : M (bool * bool) :=
  d ← getEngine;
  match schedules d !! name with
  | None => mret (false, false)
  | Some p =>
      sched ← load p;
      emit (Log Info "HasSchedule");;
      mret (true, isFailed sched)
  end.

Definition DeleteSchedule (name : string) : M unit :=
  d ← getEngine;
  match schedules d !! name with
  | Some p =>
      s ← load p;
      setTimer p (Stop (timer s));;
      putEngine (mkDrainSchedules (delete name (schedules d))
                                  (lastDrainScheduledFor d) (period d))
  | None => emit (Log Warn "Entry not found in deletion schedule")
  end.

(** [now] is the reading of [time.Now()]. *)
Definition WhenNextSchedule (d : DrainSchedules) (now : time.Time) : time.Time :=
  let sooner := time.Add now (SetConditionTimeout + time.Second) in
  let when := time.Add (lastDrainScheduledFor d) (period d) in
  if time.Before when sooner then sooner else when.

(** [newSchedule] makes the object and arms its timer.  The instant at
    which the timer fires is not modelled: an armed timer may fire at any
    moment (see [step]). *)
Definition newSchedule (node : string) (when : time.Time) : M addr :=
  alloc (mkSchedule when 0 time.zero (mkTimer TimerArmed node when)).

(** The part of [Schedule] run with the mutex held: the answer is already
    known ([inl]) or the announcement of [when] is still to be made
    ([inr]). *)
Definition ScheduleLocked (node : string) (now : time.Time)
  : M (time.Time * error + time.Time) :=
  d ← getEngine;
  match schedules d !! node with
  | Some p =>
      sched ← load p;
      mret (inl (when sched, NewAlreadyScheduledError))
  | None =>
      let when := WhenNextSchedule d now in
      putEngine (mkDrainSchedules (schedules d) when (period d));;
      p ← newSchedule node when;
      d ← getEngine;
      putEngine (mkDrainSchedules (<[node := p]> (schedules d))
                                  (lastDrainScheduledFor d) (period d));;
      mret (inr when)
  end.

(** [Schedule] for a node that is not nil, known by its name, run without
    interference: nothing else happens between the locked section, the
    announcement and the rollback.  [announce] is what [RetryWithTimeout]
    returns for the announcement.  In the source the mutex is released
    before the announcement, so that timers and other callers can run in
    between: that is [ScheduleLocked], then any [steps], then
    [DeleteSchedule] if the announcement failed. *)
Definition Schedule (node : string) (now : time.Time) (announce : error)
  : M (time.Time * error) :=
  r ← ScheduleLocked node now;
  match r with
  | inl answer => mret answer
  | inr when =>
      emit (CallMarkDrain node when time.zero false);;
      match announce with
      | Some err =>
          emit (Log Info "Delete Schedule");;
          DeleteSchedule node;;
          mret (time.zero, Some err)
      | None => mret (when, None)
      end
  end.

(** [Schedule] as its callers reach it: [node] is a pointer and [None] is
    nil, on which [node.GetName()], the first thing done once the mutex is
    held, panics. *)
Definition ScheduleNode (node : option string) (now : time.Time) (announce : error)
  : M (time.Time * error) :=
  match node with
  | Some name => Schedule name now announce
  | None => panic
  end.

(** ** The timer callback *)

(** The function given to [time.AfterFunc], up to its call of [Drain]. *)
Definition callbackStart (node : string) : M unit :=
  emit (Event eventReasonDrainStarting "Draining node");;
  emit (CallDrain node).

(** [Drain] returned an error: what the callback does before it announces
    the failure. *)
Definition recordDrainFailure (p : addr) (now : time.Time) : M unit :=
  emit (Log Info "Failed to drain");;
  setFinish p now;;
  setFailed p;;
  emit (StatNodesDrained tagResultFailed);;
  emit (Event eventReasonDrainFailed "Draining failed: %v").

(** The announcement of the failure: [RetryWithTimeout] around
    [MarkDrain(node, when, sched.finish, true)], which returned
    [announceErr]. *)
Definition announceDrainFailure (node : string) (when : time.Time) (p : addr)
    (announceErr : error) : M unit :=
  sched ← load p;
  emit (CallMarkDrain node when (finish sched) true);;
  match announceErr with
  | Some _ => emit (Log Error "Failed to place condition following drain failure")
  | None => mret tt
  end.

(** [Drain] returned [nil]. *)
Definition recordDrainSuccess (p : addr) (now : time.Time) : M unit :=
  emit (Log Info "Drained");;
  setFinish p now;;
  emit (StatNodesDrained tagResultSucceeded);;
  emit (Event eventReasonDrainSucceeded "Drained node").

Definition announceDrainSuccess (node : string) (when : time.Time) (p : addr)
    (announceErr : error) : M unit :=
  sched ← load p;
  emit (CallMarkDrain node when (finish sched) false);;
  match announceErr with
  | Some err =>
      emit (Event eventReasonDrainFailed "Failed to place drain condition: %v");;
      emit (Log Error (String.append
                         "Failed to place condition following drain success : "
                         (errorText err)))
  | None => mret tt
  end.

(** The callback from the return of [Drain]: [drainErr] is what [Drain]
    returned and [now] the reading of the clock.  The function returns
    nothing. *)
Definition callbackFinish (node : string) (when : time.Time) (p : addr)
    (drainErr : error) (now : time.Time) (announceErr : error) : M unit :=
  match drainErr with
  | Some err =>
      recordDrainFailure p now;;
      announceDrainFailure node when p announceErr
  | None =>
      recordDrainSuccess p now;;
      announceDrainSuccess node when p announceErr
  end.

Definition timerCallback (node : string) (when : time.Time) (p : addr)
    (drainErr : error) (now : time.Time) (announceErr : error) : M unit :=
  callbackStart node;;
  callbackFinish node when p drainErr now announceErr.

(** The runtime side of a timer: the timer of the object at [p] fires if
    it is armed, and then runs its function with the variables it
    captured; a timer that was stopped, or has fired, does nothing. *)
Definition timerFires (p : addr) (drainErr : error) (now : time.Time)
    (announceErr : error) : M unit :=
  s ← load p;
  match tstate (timer s) with
  | TimerArmed =>
      setTimer p (mkTimer TimerFired (fnode (timer s)) (fwhen (timer s)));;
      timerCallback (fnode (timer s)) (fwhen (timer s)) p drainErr now announceErr
  | _ => mret tt
  end.

Arguments timerFires p%_nat drainErr now%_Z announceErr.

(** ** The operations of the engine, run one after the other *)

Inductive operation : Type :=
| OpSchedule (node : string) (now : time.Time) (announce : error)
| OpHasSchedule (name : string)
| OpDeleteSchedule (name : string)
| OpIsScheduledByOldEvent (name : string) (transitionTime : time.Time)
| OpTimerFires (p : addr) (drainErr : error) (now : time.Time) (announceErr : error).

Arguments OpTimerFires p%_nat drainErr now%_Z announceErr.

Definition run (o : operation) : M unit :=
  match o with
  | OpSchedule node now announce => Schedule node now announce;; mret tt
  | OpHasSchedule name => HasSchedule name;; mret tt
  | OpDeleteSchedule name => DeleteSchedule name
  | OpIsScheduledByOldEvent name t => IsScheduledByOldEvent name t;; mret tt
  | OpTimerFires p drainErr now announceErr => timerFires p drainErr now announceErr
  end.

Fixpoint runAll (l : list operation) : M unit :=
  match l with
  | [] => mret tt
  | o :: l' => run o;; runAll l'
  end.

(** ** Interleavings

    The public methods and the timer callbacks run concurrently.  What is
    atomic is a section run with the mutex held and each single write of a
    callback to its object; [Drain], the log lines and the announcements
    happen outside the mutex and may be overtaken by anything.  The
    transition system below has one action per atomic section.  A callback
    that has started is in [callbacks], with the point it has reached. *)

Inductive stage : Type :=
| Draining         (* [Drain] has not returned *)
| MarkingFailed.   (* [Drain] failed and [finish] is written, [failed] not yet *)

Record System : Type := mkSystem {
  world : World;
  callbacks : gmap addr stage
}.

Inductive action : Type :=
| ActScheduleLocked (node : string) (now : time.Time)
| ActDeleteSchedule (name : string)
| ActHasSchedule (name : string)
| ActIsScheduledByOldEvent (name : string) (transitionTime : time.Time)
| ActEffect (e : effect)
| ActFire (p : addr)
| ActDrained (p : addr) (now : time.Time)
| ActDrainFailed (p : addr) (now : time.Time)
| ActSetFailed (p : addr).

Inductive step : System → action → System → Prop :=
| step_schedule node now r w w' cb :
    ScheduleLocked node now w = Some (r, w') →
    step (mkSystem w cb) (ActScheduleLocked node now) (mkSystem w' cb)
| step_delete name w w' cb :
    DeleteSchedule name w = Some (tt, w') →
    step (mkSystem w cb) (ActDeleteSchedule name) (mkSystem w' cb)
| step_has name r w w' cb :
    HasSchedule name w = Some (r, w') →
    step (mkSystem w cb) (ActHasSchedule name) (mkSystem w' cb)
| step_old name t r w w' cb :
    IsScheduledByOldEvent name t w = Some (r, w') →
    step (mkSystem w cb) (ActIsScheduledByOldEvent name t) (mkSystem w' cb)
| step_effect e w w' cb :
    emit e w = Some (tt, w') →
    step (mkSystem w cb) (ActEffect e) (mkSystem w' cb)
| step_fire p s w w' cb :
    store w !! p = Some s →
    tstate (timer s) = TimerArmed →
    setTimer p (mkTimer TimerFired (fnode (timer s)) (fwhen (timer s))) w = Some (tt, w') →
    step (mkSystem w cb) (ActFire p) (mkSystem w' (<[p := Draining]> cb))
| step_drained p now w w' cb :
    cb !! p = Some Draining →
    setFinish p now w = Some (tt, w') →
    step (mkSystem w cb) (ActDrained p now) (mkSystem w' (delete p cb))
| step_drain_failed p now w w' cb :
    cb !! p = Some Draining →
    setFinish p now w = Some (tt, w') →
    step (mkSystem w cb) (ActDrainFailed p now) (mkSystem w' (<[p := MarkingFailed]> cb))
| step_set_failed p w w' cb :
    cb !! p = Some MarkingFailed →
    setFailed p w = Some (tt, w') →
    step (mkSystem w cb) (ActSetFailed p) (mkSystem w' (delete p cb)).

Inductive steps : System → list action → System → Prop :=
| steps_nil σ : steps σ [] σ
| steps_cons σ a σ1 l σ2 : step σ a σ1 → steps σ1 l σ2 → steps σ (a :: l) σ2.

(** Every pointer held by the map refers to an allocated object. *)
Definition wf (w : World) : Prop :=
  map_Forall (λ _ p, (p < length (store w))%nat) (schedules (eng w)).

Global Instance wf_dec w : Decision (wf w).
Proof. unfold wf. apply _. Defined.

(** ** Worlds reached by [Schedule] *)

(** The world in which [Schedule] makes its announcement. *)
Definition scheduled (node : string) (now : time.Time) (w : World) : World :=
  mkWorld
    (mkDrainSchedules (<[node := length (store w)]> (schedules (eng w)))
                      (WhenNextSchedule (eng w) now) (period (eng w)))
    (store w ++ [mkSchedule (WhenNextSchedule (eng w) now) 0 time.zero
                            (mkTimer TimerArmed node (WhenNextSchedule (eng w) now))])
    (trace w).

(** The world [Schedule] leaves behind when its announcement succeeded. *)
Definition announced (node : string) (now : time.Time) (w : World) : World :=
  mkWorld (eng (scheduled node now w)) (store (scheduled node now w))
          (trace w ++ [CallMarkDrain node (WhenNextSchedule (eng w) now) time.zero false]).

(** The world [Schedule] leaves behind when its announcement failed. *)
Definition rolledBack (node : string) (now : time.Time) (w : World) : World :=
  mkWorld
    (mkDrainSchedules (schedules (eng w))
                      (WhenNextSchedule (eng w) now) (period (eng w)))
    (store w ++ [mkSchedule (WhenNextSchedule (eng w) now) 0 time.zero
                            (mkTimer TimerStopped node (WhenNextSchedule (eng w) now))])
    (trace w ++ [CallMarkDrain node (WhenNextSchedule (eng w) now) time.zero false;
                 Log Info "Delete Schedule"]).

(** The callback of the object at [p], from the firing of its timer to the
    point where it is about to announce that the drain failed. *)
Definition untilFailureAnnouncement (p : addr) (now : time.Time) : M unit :=
  s ← load p;
  setTimer p (mkTimer TimerFired (fnode (timer s)) (fwhen (timer s)));;
  callbackStart (fnode (timer s));;
  recordDrainFailure p now.

(** ** Invariants *)

(** An operation that can be asked of the engine in world [w]: a timer
    that fires belongs to an object that exists. *)
Definition enabled (o : operation) (w : World) : Prop :=
  match o with
  | OpTimerFires p _ _ _ => (p < length (store w))%nat
  | _ => True
  end.

(** From [s] to [s'] the scheduled time is kept, and so is a failed flag
    that is set. *)
Definition keeps (s s' : schedule) : Prop :=
  when s' = when s ∧ (failed s = 1 → failed s' = 1).

(** Every object of [w] is still there in [w']. *)
Definition objectsKept (w w' : World) : Prop :=
  ∀ p s, store w !! p = Some s → ∃ s', store w' !! p = Some s' ∧ keeps s s'.

(** [follows w w']: the period is the same, [lastDrainScheduledFor] has not
    moved back, and the objects are kept. *)
Definition follows (w w' : World) : Prop :=
  period (eng w') = period (eng w)
  ∧ lastDrainScheduledFor (eng w) ≤ lastDrainScheduledFor (eng w')
  ∧ objectsKept w w'.

(** ** Runs on concrete inputs *)

Definition minute : time.Duration := 60 * time.Second.

(** The world after the operations [l] were run from [w]; [w] itself if
    the run panics. *)
Definition after (l : list operation) (w : World) : World :=
  match runAll l w with
  | Some (_, w') => w'
  | None => w
  end.

(** An instant of the year 2024. *)
Definition t0 : time.Time := 63840000000 * time.Second.

(** Node A is scheduled and waits for its timer. *)
Definition worldPending : World :=
  after [OpSchedule "nodeA" t0 None] (NewDrainSchedules (5 * minute)).

(** The object of node A in [worldPending]. *)
Definition schedulePending : schedule :=
  mkSchedule (t0 + 11 * time.Second) 0 time.zero
             (mkTimer TimerArmed "nodeA" (t0 + 11 * time.Second)).

(** The drain of node A failed. *)
Definition worldFailed : World :=
  after [OpTimerFires 0 (Some (OtherError "eviction failed")) (t0 + 12 * time.Second) None]
        worldPending.

(** The drain of node A succeeded. *)
Definition worldDrained : World :=
  after [OpTimerFires 0 None (t0 + 12 * time.Second) None] worldPending.

(** What a run from the initial engine answers. *)
Definition answer {A : Type} (period : time.Duration) (c : M A) : option A :=
  fst <$> c (NewDrainSchedules period).


(** ** Objects over time, and the states the engine can reach *)

(** From [s] to [s'], two states of one object: the scheduled time and the
    variables captured by the timer's function are the same, a failed flag
    that is set stays set, and a timer that is not armed keeps its state. *)
Definition persists (s s' : schedule) : Prop :=
  when s' = when s
  ∧ fnode (timer s') = fnode (timer s)
  ∧ fwhen (timer s') = fwhen (timer s)
  ∧ (failed s = 1 → failed s' = 1)
  ∧ (tstate (timer s) ≠ TimerArmed → tstate (timer s') = tstate (timer s)).

(** The engine made by [NewDrainSchedules], no callback running. *)
Definition initial (period : time.Duration) : System :=
  mkSystem (NewDrainSchedules period) ∅.

Definition reachable (σ : System) : Prop :=
  ∃ period l, steps (initial period) l σ.

(** The scheduled times of the objects, in the order of their creation. *)
Definition whens (w : World) : list time.Time := when <$> store w.

(** Nodes A and B are scheduled and wait for their timers. *)
Definition worldTwo : World :=
  after [OpSchedule "nodeB" t0 None] worldPending.

(** Node A was deleted before its timer fired. *)
Definition worldDeleted : World :=
  after [OpDeleteSchedule "nodeA"] worldPending.

(** The map and the objects agree: every pointer of the map refers to an
    object, no two names share an object, the timer of the object of a name
    was made for that name, and every timer was made for the [when] of its
    object. *)
Definition mapConsistent (w : World) : Prop :=
  wf w
  ∧ (∀ n1 n2 p, schedules (eng w) !! n1 = Some p → schedules (eng w) !! n2 = Some p →
                n1 = n2)
  ∧ (∀ name p s, schedules (eng w) !! name = Some p → store w !! p = Some s →
                 fnode (timer s) = name)
  ∧ (∀ p s, store w !! p = Some s → fwhen (timer s) = when s).

(** The scheduled times are staggered: none is after
    [lastDrainScheduledFor], and each is at least one period after the
    times given before it. *)
Definition staggered (w : World) : Prop :=
  (∀ p t, whens w !! p = Some t → t ≤ lastDrainScheduledFor (eng w))
  ∧ (∀ p q tp tq, (p < q)%nat → whens w !! p = Some tp → whens w !! q = Some tq →
                  tp + period (eng w) ≤ tq).

(** Where each object is in its life: the failed flag is 0 or 1; before the
    timer has fired nothing is written and no callback runs; a callback that
    runs has not set the failed flag, and has not written [finish] while it
    waits for [Drain]. *)
Definition lifecycle (σ : System) : Prop :=
  (∀ p, is_Some (callbacks σ !! p) → (p < length (store (world σ)))%nat)
  ∧ ∀ p s, store (world σ) !! p = Some s →
      (failed s = 0 ∨ failed s = 1)
      ∧ (tstate (timer s) ≠ TimerFired →
         finish s = time.zero ∧ failed s = 0 ∧ callbacks σ !! p = None)
      ∧ (is_Some (callbacks σ !! p) → failed s = 0)
      ∧ (callbacks σ !! p = Some Draining → finish s = time.zero).

(** The timer of node A has fired and its callback waits for [Drain]. *)
Definition worldDraining : World :=
  mkWorld (eng worldPending)
          [mkSchedule (t0 + 11 * time.Second) 0 time.zero
                      (mkTimer TimerFired "nodeA" (t0 + 11 * time.Second))]
          (trace worldPending).


(** Period 5m: A is scheduled at the floor, B one period after A. *)
Example schedule_A_then_B :
  answer (5 * minute)
    (a ← Schedule "nodeA" t0 None; b ← Schedule "nodeB" t0 None; mret (a, b))
  = Some ((t0 + 11 * time.Second, None), (t0 + 11 * time.Second + 5 * minute, None)).
Proof. vm_compute. reflexivity. Qed.

Example schedule_twice :
  answer (5 * minute)
    (Schedule "nodeA" t0 None;; Schedule "nodeA" (t0 + minute) None)
  = Some (t0 + 11 * time.Second, NewAlreadyScheduledError).
Proof. vm_compute. reflexivity. Qed.

Example announcement_fails :
  answer (5 * minute)
    (r ← Schedule "nodeC" t0 (Some (OtherError "timed out"));
     h ← HasSchedule "nodeC"; mret (r, h))
  = Some ((0, Some (OtherError "timed out")), (false, false)).
Proof. vm_compute. reflexivity. Qed.

Example drain_fails :
  answer (5 * minute)
    (Schedule "nodeA" t0 None;;
     timerFires 0 (Some (OtherError "eviction failed")) (t0 + 12 * time.Second) None;;
     h ← HasSchedule "nodeA";
     o ← IsScheduledByOldEvent "nodeA" (t0 + 5 * minute);
     mret (h, o))
  = Some ((true, true), false).
Proof. vm_compute. reflexivity. Qed.

Example drain_succeeds :
  answer (5 * minute)
    (Schedule "nodeA" t0 None;;
     timerFires 0 None (t0 + 12 * time.Second) None;;
     h ← HasSchedule "nodeA";
     o1 ← IsScheduledByOldEvent "nodeA" (t0 + 11 * time.Second + 1);
     o2 ← IsScheduledByOldEvent "nodeA" (t0 + 11 * time.Second);
     mret (h, o1, o2))
  = Some ((true, false), true, false).
Proof. vm_compute. reflexivity. Qed.

(** A deleted schedule does not fire, and the node can be scheduled anew. *)
Example delete_then_schedule :
  answer (5 * minute)
    (Schedule "nodeA" t0 None;;
     DeleteSchedule "nodeA";;
     timerFires 0 None (t0 + 12 * time.Second) None;;
     h ← HasSchedule "nodeA";
     r ← Schedule "nodeA" (t0 + minute) None;
     mret (h, r))
  = Some ((false, false), (t0 + 11 * time.Second + 5 * minute, None)).
Proof. vm_compute. reflexivity. Qed.

(** ** Reasoning about runs *)

Lemma run_bind {A B : Type} (c : M A) (f : A → M B) (w w1 : World) (x : A) :
  c w = Some (x, w1) → (c ≫= f) w = f x w1.
Proof. intros Hc. unfold mbind, M_bind. by rewrite Hc. Qed.

Lemma bind_Some {A B : Type} (c : M A) (f : A → M B) (w w' : World) (y : B) :
  (c ≫= f) w = Some (y, w') ↔ ∃ x w1, c w = Some (x, w1) ∧ f x w1 = Some (y, w').
Proof.
  unfold mbind, M_bind. split.
  - destruct (c w) as [[x w1]|] eqn:Hc; [|done]. intros Hf. by exists x, w1.
  - intros (x & w1 & -> & Hf). done.
Qed.

Lemma emit_run (e : effect) (w : World) :
  emit e w = Some (tt, mkWorld (eng w) (store w) (trace w ++ [e])).
Proof. done. Qed.

Lemma getEngine_run (w : World) : getEngine w = Some (eng w, w).
Proof. done. Qed.

Lemma putEngine_run (d : DrainSchedules) (w : World) :
  putEngine d w = Some (tt, mkWorld d (store w) (trace w)).
Proof. done. Qed.

Lemma load_run (p : addr) (w : World) (s : schedule) :
  store w !! p = Some s → load p w = Some (s, w).
Proof. intros Hp. unfold load, mbind, M_bind, getWorld. by rewrite Hp. Qed.

Lemma load_Some (p : addr) (w w' : World) (s : schedule) :
  load p w = Some (s, w') → store w !! p = Some s ∧ w' = w.
Proof.
  unfold load, mbind, M_bind, getWorld, panic.
  destruct (store w !! p) as [s'|]; [|done].
  intros [= <- <-]. done.
Qed.

Lemma modify_run (p : addr) (f : schedule → schedule) (w : World) (s : schedule) :
  store w !! p = Some s →
  modify p f w = Some (tt, mkWorld (eng w) (<[p := f s]> (store w)) (trace w)).
Proof. intros Hp. unfold modify. by rewrite (run_bind _ _ _ _ _ (load_run _ _ _ Hp)). Qed.

Lemma modify_Some (p : addr) (f : schedule → schedule) (w w' : World) :
  modify p f w = Some (tt, w') →
  ∃ s, store w !! p = Some s
       ∧ w' = mkWorld (eng w) (<[p := f s]> (store w)) (trace w).
Proof.
  unfold modify. intros (s & w1 & Hl & Hput)%bind_Some.
  apply load_Some in Hl as [Hp ->]. exists s. split; [done|].
  by injection Hput as <-.
Qed.

Lemma wf_lookup (w : World) (name : string) (p : addr) :
  wf w → schedules (eng w) !! name = Some p → ∃ s, store w !! p = Some s.
Proof.
  intros Hwf Hm. apply lookup_lt_is_Some. by apply (Hwf name p).
Qed.

Lemma wf_new (period : time.Duration) : wf (NewDrainSchedules period).
Proof. apply map_Forall_empty. Qed.

(** ** The scheduling time *)

Lemma floor_value : SetConditionTimeout + time.Second = 11000000000.
Proof. reflexivity. Qed.

(** C1: the next drain time is the later of [lastDrainScheduledFor + period]
    and the floor [now + SetConditionTimeout + 1s]: it is the former when
    the former is not before the floor, and the floor otherwise. *)
Theorem WhenNextSchedule_is_max (d : DrainSchedules) (now : time.Time) :
  WhenNextSchedule d now
  = Z.max (lastDrainScheduledFor d + period d) (now + SetConditionTimeout + time.Second)
  ∧ (now + SetConditionTimeout + time.Second ≤ lastDrainScheduledFor d + period d
     ∧ WhenNextSchedule d now = lastDrainScheduledFor d + period d
     ∨ lastDrainScheduledFor d + period d < now + SetConditionTimeout + time.Second
       ∧ WhenNextSchedule d now = now + SetConditionTimeout + time.Second).
Proof.
  unfold WhenNextSchedule, time.Add, time.Before.
  rewrite Z.add_assoc.
  destruct (Z.ltb_spec (lastDrainScheduledFor d + period d)
                       (now + SetConditionTimeout + time.Second)) as [Hlt|Hge].
  - split; [lia|]. right. done.
  - split; [lia|]. left. done.
Qed.

Lemma WhenNextSchedule_max (d : DrainSchedules) (now : time.Time) :
  WhenNextSchedule d now
  = Z.max (lastDrainScheduledFor d + period d) (now + SetConditionTimeout + time.Second).
Proof.
  unfold WhenNextSchedule, time.Add, time.Before. rewrite Z.add_assoc.
  destruct (Z.ltb_spec (lastDrainScheduledFor d + period d)
                       (now + SetConditionTimeout + time.Second)); lia.
Qed.

(** ** What each method computes *)

Lemma HasSchedule_absent (name : string) (w : World) :
  schedules (eng w) !! name = None →
  HasSchedule name w = Some ((false, false), w).
Proof.
  intros Hm. unfold HasSchedule.
  rewrite (run_bind _ _ _ _ _ (getEngine_run w)), Hm. done.
Qed.

Lemma HasSchedule_present (name : string) (w : World) (p : addr) (s : schedule) :
  schedules (eng w) !! name = Some p →
  store w !! p = Some s →
  HasSchedule name w
  = Some ((true, isFailed s),
          mkWorld (eng w) (store w) (trace w ++ [Log Info "HasSchedule"])).
Proof.
  intros Hm Hp. unfold HasSchedule.
  rewrite (run_bind _ _ _ _ _ (getEngine_run w)), Hm.
  rewrite (run_bind _ _ _ _ _ (load_run _ _ _ Hp)). done.
Qed.

Lemma IsScheduledByOldEvent_absent (name : string) (t : time.Time) (w : World) :
  schedules (eng w) !! name = None →
  IsScheduledByOldEvent name t w = Some (false, w).
Proof.
  intros Hm. unfold IsScheduledByOldEvent.
  rewrite (run_bind _ _ _ _ _ (getEngine_run w)), Hm. done.
Qed.

Lemma IsScheduledByOldEvent_present (name : string) (t : time.Time) (w : World)
    (p : addr) (s : schedule) :
  schedules (eng w) !! name = Some p →
  store w !! p = Some s →
  IsScheduledByOldEvent name t w
  = Some (time.Before (when s) t && negb (isFailed s) && negb (time.IsZero (finish s)), w).
Proof.
  intros Hm Hp. unfold IsScheduledByOldEvent.
  rewrite (run_bind _ _ _ _ _ (getEngine_run w)), Hm.
  rewrite (run_bind _ _ _ _ _ (load_run _ _ _ Hp)). done.
Qed.

Lemma DeleteSchedule_absent (name : string) (w : World) :
  schedules (eng w) !! name = None →
  DeleteSchedule name w
  = Some (tt, mkWorld (eng w) (store w)
                      (trace w ++ [Log Warn "Entry not found in deletion schedule"])).
Proof.
  intros Hm. unfold DeleteSchedule.
  rewrite (run_bind _ _ _ _ _ (getEngine_run w)), Hm. done.
Qed.

Lemma DeleteSchedule_present (name : string) (w : World) (p : addr) (s : schedule) :
  schedules (eng w) !! name = Some p →
  store w !! p = Some s →
  DeleteSchedule name w
  = Some (tt, mkWorld (mkDrainSchedules (delete name (schedules (eng w)))
                                        (lastDrainScheduledFor (eng w)) (period (eng w)))
                      (<[p := mkSchedule (when s) (failed s) (finish s) (Stop (timer s))]>
                         (store w))
                      (trace w)).
Proof.
  intros Hm Hp. unfold DeleteSchedule, setTimer.
  rewrite (run_bind _ _ _ _ _ (getEngine_run w)), Hm.
  rewrite (run_bind _ _ _ _ _ (load_run _ _ _ Hp)).
  rewrite (run_bind _ _ _ _ _ (modify_run _ _ _ _ Hp)). done.
Qed.

Lemma ScheduleLocked_present (node : string) (now : time.Time) (w : World)
    (p : addr) (s : schedule) :
  schedules (eng w) !! node = Some p →
  store w !! p = Some s →
  ScheduleLocked node now w = Some (inl (when s, NewAlreadyScheduledError), w).
Proof.
  intros Hm Hp. unfold ScheduleLocked.
  rewrite (run_bind _ _ _ _ _ (getEngine_run w)), Hm.
  rewrite (run_bind _ _ _ _ _ (load_run _ _ _ Hp)). done.
Qed.

Lemma ScheduleLocked_absent (node : string) (now : time.Time) (w : World) :
  schedules (eng w) !! node = None →
  ScheduleLocked node now w
  = Some (inr (WhenNextSchedule (eng w) now), scheduled node now w).
Proof.
  intros Hm. unfold ScheduleLocked.
  rewrite (run_bind _ _ _ _ _ (getEngine_run w)), Hm. done.
Qed.

Lemma Schedule_present (node : string) (now : time.Time) (announce : error)
    (w : World) (p : addr) (s : schedule) :
  schedules (eng w) !! node = Some p →
  store w !! p = Some s →
  Schedule node now announce w = Some ((when s, NewAlreadyScheduledError), w).
Proof.
  intros Hm Hp. unfold Schedule.
  rewrite (run_bind _ _ _ _ _ (ScheduleLocked_present _ now _ _ _ Hm Hp)). done.
Qed.

Lemma Schedule_announced (node : string) (now : time.Time) (w : World) :
  schedules (eng w) !! node = None →
  Schedule node now None w
  = Some ((WhenNextSchedule (eng w) now, None),
          mkWorld (eng (scheduled node now w)) (store (scheduled node now w))
                  (trace w ++ [CallMarkDrain node (WhenNextSchedule (eng w) now)
                                             time.zero false])).
Proof.
  intros Hm. unfold Schedule.
  rewrite (run_bind _ _ _ _ _ (ScheduleLocked_absent _ now _ Hm)). done.
Qed.

Lemma store_snoc_lookup (l : list schedule) (s : schedule) :
  (l ++ [s]) !! length l = Some s.
Proof. by rewrite list_lookup_middle. Qed.

Lemma store_snoc_insert (l : list schedule) (s s' : schedule) :
  <[length l := s']> (l ++ [s]) = l ++ [s'].
Proof. rewrite <- (Nat.add_0_r (length l)). by rewrite insert_app_r. Qed.

Lemma Schedule_rolled_back (node : string) (now : time.Time) (err : errorValue)
    (w : World) :
  schedules (eng w) !! node = None →
  Schedule node now (Some err) w = Some ((time.zero, Some err), rolledBack node now w).
Proof.
  intros Hm. unfold Schedule.
  rewrite (run_bind _ _ _ _ _ (ScheduleLocked_absent _ now _ Hm)).
  cbn -[DeleteSchedule WhenNextSchedule].
  do 2 rewrite (run_bind _ _ _ _ _ (emit_run _ _)).
  cbn -[DeleteSchedule WhenNextSchedule].
  match goal with |- (DeleteSchedule _ ≫= _) ?w2 = _ =>
    rewrite (run_bind _ _ _ _ _
               (DeleteSchedule_present node w2 (length (store w)) _
                  (lookup_insert_eq _ _ _) (store_snoc_lookup _ _)))
  end.
  cbn -[WhenNextSchedule]. unfold rolledBack.
  rewrite store_snoc_insert, delete_insert_eq, (delete_id _ _ Hm), <- app_assoc. done.
Qed.

(** ** The queries *)

Ltac by_computation := apply (bool_decide_unpack _); vm_compute; exact I.

Lemma isFailed_flag (s : schedule) : isFailed s = bool_decide (failed s = 1).
Proof.
  unfold isFailed. destruct (Z.eqb_spec (failed s) 1) as [Heq|Hne].
  - by rewrite bool_decide_eq_true_2.
  - by rewrite bool_decide_eq_false_2.
Qed.

(** C8: [HasSchedule] answers [(false, false)] for a name without entry and
    [(true, f)] for a name with an entry, [f] telling whether the field
    [failed] of the entry's object is 1; it leaves the engine state as it
    was. *)
Theorem HasSchedule_reports (w : World) (name : string) :
  wf w →
  ∃ r w', HasSchedule name w = Some (r, w')
    ∧ engineState w' = engineState w
    ∧ match schedules (eng w) !! name with
      | None => r = (false, false)
      | Some p => ∃ s, store w !! p = Some s ∧ r = (true, bool_decide (failed s = 1))
      end.
Proof.
  intros Hwf. destruct (schedules (eng w) !! name) as [p|] eqn:Hm.
  - destruct (wf_lookup _ _ _ Hwf Hm) as [s Hs].
    eexists _, _. split; [apply (HasSchedule_present _ _ _ _ Hm Hs)|].
    split; [done|]. exists s. by rewrite isFailed_flag.
  - eexists _, _. split; [by apply HasSchedule_absent|]. done.
Qed.

Lemma HasSchedule_reports_witness :
  wf worldFailed
  ∧ ∃ r w', HasSchedule "nodeA" worldFailed = Some (r, w')
    ∧ engineState w' = engineState worldFailed
    ∧ match schedules (eng worldFailed) !! "nodeA" with
      | None => r = (false, false)
      | Some p =>
          ∃ s, store worldFailed !! p = Some s ∧ r = (true, bool_decide (failed s = 1))
      end.
Proof.
  assert (Hwf : wf worldFailed) by by_computation.
  split; [exact Hwf|]. exact (HasSchedule_reports worldFailed "nodeA" Hwf).
Defined.

(** C4: [IsScheduledByOldEvent] answers [true] exactly when the name has an
    entry whose [finish] is not the zero time, whose field [failed] is not 1
    and whose [when] is strictly before [transitionTime]; it answers [false]
    in every other case. *)
Theorem IsScheduledByOldEvent_iff (w : World) (name : string) (transitionTime : time.Time) :
  wf w →
  ∃ b, IsScheduledByOldEvent name transitionTime w = Some (b, w)
    ∧ (b = true ↔
       ∃ p s, schedules (eng w) !! name = Some p ∧ store w !! p = Some s
              ∧ finish s ≠ time.zero ∧ failed s ≠ 1
              ∧ when s < transitionTime).
Proof.
  intros Hwf. destruct (schedules (eng w) !! name) as [p|] eqn:Hm.
  - destruct (wf_lookup _ _ _ Hwf Hm) as [s Hs].
    eexists. split; [apply (IsScheduledByOldEvent_present _ _ _ _ _ Hm Hs)|].
    unfold time.Before, time.IsZero, time.zero, isFailed.
    rewrite !andb_true_iff, !negb_true_iff, Z.ltb_lt, !Z.eqb_neq. split.
    + intros [[Hw Hf] Hz]. by exists p, s.
    + intros (p' & s' & [= <-] & Hs' & Hz & Hf & Hw).
      rewrite Hs in Hs'. by injection Hs' as <-.
  - eexists. split; [by apply IsScheduledByOldEvent_absent|].
    split; [done|]. by intros (p & s & [=] & _).
Qed.

Lemma IsScheduledByOldEvent_iff_witness :
  wf worldDrained
  ∧ ∃ b, IsScheduledByOldEvent "nodeA" (t0 + minute) worldDrained = Some (b, worldDrained)
    ∧ (b = true ↔
       ∃ p s, schedules (eng worldDrained) !! "nodeA" = Some p
              ∧ store worldDrained !! p = Some s
              ∧ finish s ≠ time.zero ∧ failed s ≠ 1
              ∧ when s < t0 + minute).
Proof.
  assert (Hwf : wf worldDrained) by by_computation.
  split; [exact Hwf|].
  exact (IsScheduledByOldEvent_iff worldDrained "nodeA" (t0 + minute) Hwf).
Defined.

(** ** Scheduling *)

(** C3: for a node that has an entry, [Schedule] returns the [when] of that
    entry with an error that [IsAlreadyScheduledError] recognises, and
    changes nothing: the map, the objects and [lastDrainScheduledFor] are
    as before. *)
Theorem Schedule_conflict (w : World) (node : string) (p : addr)
    (now : time.Time) (announce : error) :
  wf w →
  schedules (eng w) !! node = Some p →
  ∃ s err, store w !! p = Some s
    ∧ Schedule node now announce w = Some ((when s, err), w)
    ∧ IsAlreadyScheduledError err = true.
Proof.
  intros Hwf Hm. destruct (wf_lookup _ _ _ Hwf Hm) as [s Hs].
  exists s, NewAlreadyScheduledError. split; [done|].
  split; [apply (Schedule_present _ _ _ _ _ _ Hm Hs)|done].
Qed.

Lemma Schedule_conflict_witness :
  (wf worldPending ∧ schedules (eng worldPending) !! "nodeA" = Some 0%nat)
  ∧ ∃ s err, store worldPending !! 0%nat = Some s
    ∧ Schedule "nodeA" (t0 + minute) None worldPending = Some ((when s, err), worldPending)
    ∧ IsAlreadyScheduledError err = true.
Proof.
  assert (Hwf : wf worldPending) by by_computation.
  assert (Hm : schedules (eng worldPending) !! "nodeA" = Some 0%nat)
    by (vm_compute; reflexivity).
  split; [done|].
  exact (Schedule_conflict worldPending "nodeA" 0%nat (t0 + minute) None Hwf Hm).
Defined.

(** Two calls in a row: the second one returns the time of the first with
    the "already scheduled" error and changes nothing. *)
Lemma Schedule_twice (w w1 : World) (node : string) (now1 now2 : time.Time)
    (t1 : time.Time) (announce : error) :
  Schedule node now1 None w = Some ((t1, None), w1) →
  Schedule node now2 announce w1 = Some ((t1, NewAlreadyScheduledError), w1).
Proof.
  intros H1. destruct (schedules (eng w) !! node) as [p|] eqn:Hm.
  - exfalso. unfold Schedule in H1.
    apply bind_Some in H1 as (r & w2 & Hl & Hr).
    unfold ScheduleLocked in Hl.
    rewrite (run_bind _ _ _ _ _ (getEngine_run w)), Hm in Hl.
    apply bind_Some in Hl as (s & w3 & _ & Hret).
    injection Hret as <- <-. discriminate Hr.
  - rewrite (Schedule_announced _ _ _ Hm) in H1. injection H1 as <- <-.
    apply (Schedule_present _ _ _ _ (length (store w))
             (mkSchedule (WhenNextSchedule (eng w) now1) 0 time.zero
                (mkTimer TimerArmed node (WhenNextSchedule (eng w) now1)))).
    + apply lookup_insert_eq.
    + apply store_snoc_lookup.
Qed.

Lemma timerFires_not_armed (p : addr) (drainErr : error) (now : time.Time)
    (announceErr : error) (w : World) (s : schedule) :
  store w !! p = Some s →
  tstate (timer s) ≠ TimerArmed →
  timerFires p drainErr now announceErr w = Some (tt, w).
Proof.
  intros Hs Hne. unfold timerFires.
  rewrite (run_bind _ _ _ _ _ (load_run _ _ _ Hs)).
  by destruct (tstate (timer s)).
Qed.

Lemma Stop_not_armed (t : Timer) : tstate (Stop t) ≠ TimerArmed.
Proof. unfold Stop. by destruct (tstate t) eqn:Ht; cbn; rewrite ?Ht. Qed.

(** C9: [DeleteSchedule] of a name with an entry stops the timer of the
    entry and removes the entry, after which [Schedule] for that name takes
    the fresh path: it computes a new time, stores a new schedule and
    returns what the announcement returned, the computed time with no error
    when the announcement succeeded.  [DeleteSchedule] of a name without
    entry leaves the engine state as it was and does not fail. *)
Theorem DeleteSchedule_then_Schedule (w : World) (name : string) :
  wf w →
  ∃ w', DeleteSchedule name w = Some (tt, w')
    ∧ schedules (eng w') !! name = None
    ∧ match schedules (eng w) !! name with
      | Some p =>
          ∃ s, store w !! p = Some s
            ∧ schedules (eng w') = delete name (schedules (eng w))
            ∧ store w' = <[p := mkSchedule (when s) (failed s) (finish s) (Stop (timer s))]>
                           (store w)
            ∧ tstate (Stop (timer s)) ≠ TimerArmed
            ∧ ∀ drainErr now announceErr,
                timerFires p drainErr now announceErr w' = Some (tt, w')
      | None => engineState w' = engineState w
      end
    ∧ ∀ now announce, ∃ t w'',
        Schedule name now announce w' = Some ((t, announce), w'')
        ∧ lastDrainScheduledFor (eng w'') = WhenNextSchedule (eng w) now
        ∧ (announce = None →
           t = WhenNextSchedule (eng w) now
           ∧ schedules (eng w'') !! name = Some (length (store w))
           ∧ store w'' !! length (store w)
             = Some (mkSchedule t 0 time.zero (mkTimer TimerArmed name t))).
Proof.
  intros Hwf. destruct (schedules (eng w) !! name) as [p|] eqn:Hm.
  - destruct (wf_lookup _ _ _ Hwf Hm) as [s Hs].
    eexists. split; [apply (DeleteSchedule_present _ _ _ _ Hm Hs)|].
    assert (Hp : (p < length (store w))%nat) by (by apply (Hwf name p)).
    split; [apply lookup_delete_eq|]. split.
    + exists s. split; [done|]. split; [done|]. split; [done|].
      split; [apply Stop_not_armed|]. intros.
      eapply timerFires_not_armed.
      * cbn. by apply list_lookup_insert_eq.
      * apply Stop_not_armed.
    + intros now [err|].
      * eexists _, _. split.
        { apply Schedule_rolled_back. apply lookup_delete_eq. }
        split; [done|]. done.
      * eexists _, _. split.
        { apply Schedule_announced. apply lookup_delete_eq. }
        split; [done|]. intros _. split; [done|]. cbn -[WhenNextSchedule].
        rewrite length_insert. split; [apply lookup_insert_eq|].
        rewrite <- (length_insert (store w) p
          (mkSchedule (when s) (failed s) (finish s) (Stop (timer s)))) at 1.
        apply store_snoc_lookup.
  - eexists. split; [by apply DeleteSchedule_absent|].
    split; [done|]. split; [done|].
    intros now [err|].
    + eexists _, _. split; [by apply Schedule_rolled_back|]. done.
    + eexists _, _. split; [by apply Schedule_announced|].
      split; [done|]. intros _. split; [done|]. cbn -[WhenNextSchedule].
      split; [apply lookup_insert_eq|apply store_snoc_lookup].
Qed.

Lemma DeleteSchedule_then_Schedule_witness :
  wf worldPending
  ∧ ∃ w', DeleteSchedule "nodeA" worldPending = Some (tt, w')
    ∧ schedules (eng w') !! "nodeA" = None
    ∧ match schedules (eng worldPending) !! "nodeA" with
      | Some p =>
          ∃ s, store worldPending !! p = Some s
            ∧ schedules (eng w') = delete "nodeA" (schedules (eng worldPending))
            ∧ store w' = <[p := mkSchedule (when s) (failed s) (finish s) (Stop (timer s))]>
                           (store worldPending)
            ∧ tstate (Stop (timer s)) ≠ TimerArmed
            ∧ ∀ drainErr now announceErr,
                timerFires p drainErr now announceErr w' = Some (tt, w')
      | None => engineState w' = engineState worldPending
      end
    ∧ ∀ now announce, ∃ t w'',
        Schedule "nodeA" now announce w' = Some ((t, announce), w'')
        ∧ lastDrainScheduledFor (eng w'') = WhenNextSchedule (eng worldPending) now
        ∧ (announce = None →
           t = WhenNextSchedule (eng worldPending) now
           ∧ schedules (eng w'') !! "nodeA" = Some (length (store worldPending))
           ∧ store w'' !! length (store worldPending)
             = Some (mkSchedule t 0 time.zero (mkTimer TimerArmed "nodeA" t))).
Proof.
  assert (Hwf : wf worldPending) by by_computation.
  split; [exact Hwf|]. exact (DeleteSchedule_then_Schedule worldPending "nodeA" Hwf).
Defined.

(** C10: on the rollback path [Schedule] returns the zero time with the
    error of the announcement, not the time it computed; a computed time
    comes back only with no error (the time just computed) or with the
    "already scheduled" error (the time of the existing entry). *)
Theorem Schedule_returned_time (w : World) (node : string) (now : time.Time)
    (announce : error) :
  wf w →
  ∃ t e w', Schedule node now announce w = Some ((t, e), w')
    ∧ match schedules (eng w) !! node, announce with
      | Some p, _ =>
          IsAlreadyScheduledError e = true ∧ ∃ s, store w !! p = Some s ∧ t = when s
      | None, Some err => e = Some err ∧ t = time.zero
      | None, None => e = None ∧ t = WhenNextSchedule (eng w) now
      end
    ∧ (e = None ∨ IsAlreadyScheduledError e = true ∨ t = time.zero)
    ∧ now + SetConditionTimeout + time.Second ≤ WhenNextSchedule (eng w) now.
Proof.
  intros Hwf.
  assert (Hfloor : now + SetConditionTimeout + time.Second ≤ WhenNextSchedule (eng w) now)
    by (rewrite WhenNextSchedule_max; lia).
  destruct (schedules (eng w) !! node) as [p|] eqn:Hm.
  - destruct (wf_lookup _ _ _ Hwf Hm) as [s Hs].
    eexists _, _, _. split; [apply (Schedule_present _ _ _ _ _ _ Hm Hs)|].
    split; [|split; [by right; left|done]].
    split; [done|]. by exists s.
  - destruct announce as [err|].
    + eexists _, _, _. split; [by apply Schedule_rolled_back|].
      split; [done|]. split; [by right; right|done].
    + eexists _, _, _. split; [by apply Schedule_announced|].
      split; [done|]. split; [by left|done].
Qed.

Lemma Schedule_returned_time_witness :
  wf worldPending
  ∧ ∃ t e w',
    Schedule "nodeC" t0 (Some (OtherError "timed out")) worldPending = Some ((t, e), w')
    ∧ match schedules (eng worldPending) !! "nodeC", Some (OtherError "timed out") with
      | Some p, _ =>
          IsAlreadyScheduledError e = true
          ∧ ∃ s, store worldPending !! p = Some s ∧ t = when s
      | None, Some err => e = Some err ∧ t = time.zero
      | None, None => e = None ∧ t = WhenNextSchedule (eng worldPending) t0
      end
    ∧ (e = None ∨ IsAlreadyScheduledError e = true ∨ t = time.zero)
    ∧ t0 + SetConditionTimeout + time.Second ≤ WhenNextSchedule (eng worldPending) t0.
Proof.
  assert (Hwf : wf worldPending) by by_computation.
  split; [exact Hwf|].
  exact (Schedule_returned_time worldPending "nodeC" t0 (Some (OtherError "timed out")) Hwf).
Defined.

(** ** From a result back to the run *)

Lemma load_panics (p : addr) (w : World) {B : Type} (f : schedule → M B) :
  store w !! p = None → (load p ≫= f) w = None.
Proof. intros Hp. unfold load, getWorld, panic, mbind, M_bind. by rewrite Hp. Qed.

Lemma ScheduleLocked_Some (node : string) (now : time.Time) (w w' : World)
    (r : time.Time * error + time.Time) :
  ScheduleLocked node now w = Some (r, w') →
  (∃ p s, schedules (eng w) !! node = Some p ∧ store w !! p = Some s
          ∧ r = inl (when s, NewAlreadyScheduledError) ∧ w' = w)
  ∨ (schedules (eng w) !! node = None
     ∧ r = inr (WhenNextSchedule (eng w) now) ∧ w' = scheduled node now w).
Proof.
  intros H. destruct (schedules (eng w) !! node) as [p|] eqn:Hm.
  - left. destruct (store w !! p) as [s|] eqn:Hs.
    + rewrite (ScheduleLocked_present _ _ _ _ _ Hm Hs) in H.
      injection H as <- <-. by exists p, s.
    + unfold ScheduleLocked in H.
      rewrite (run_bind _ _ _ _ _ (getEngine_run w)), Hm in H.
      by rewrite (load_panics _ _ _ Hs) in H.
  - right. rewrite (ScheduleLocked_absent _ _ _ Hm) in H. by injection H as <- <-.
Qed.

Lemma DeleteSchedule_Some (name : string) (w w' : World) :
  DeleteSchedule name w = Some (tt, w') →
  (∃ p s, schedules (eng w) !! name = Some p ∧ store w !! p = Some s
          ∧ w' = mkWorld (mkDrainSchedules (delete name (schedules (eng w)))
                            (lastDrainScheduledFor (eng w)) (period (eng w)))
                         (<[p := mkSchedule (when s) (failed s) (finish s) (Stop (timer s))]>
                            (store w))
                         (trace w))
  ∨ (schedules (eng w) !! name = None
     ∧ w' = mkWorld (eng w) (store w)
                    (trace w ++ [Log Warn "Entry not found in deletion schedule"])).
Proof.
  intros H. destruct (schedules (eng w) !! name) as [p|] eqn:Hm.
  - left. destruct (store w !! p) as [s|] eqn:Hs.
    + rewrite (DeleteSchedule_present _ _ _ _ Hm Hs) in H.
      injection H as <-. by exists p, s.
    + unfold DeleteSchedule in H.
      rewrite (run_bind _ _ _ _ _ (getEngine_run w)), Hm in H.
      by rewrite (load_panics _ _ _ Hs) in H.
  - right. rewrite (DeleteSchedule_absent _ _ Hm) in H. by injection H as <-.
Qed.

Lemma HasSchedule_Some (name : string) (w w' : World) (r : bool * bool) :
  HasSchedule name w = Some (r, w') → engineState w' = engineState w.
Proof.
  intros H. destruct (schedules (eng w) !! name) as [p|] eqn:Hm.
  - destruct (store w !! p) as [s|] eqn:Hs.
    + rewrite (HasSchedule_present _ _ _ _ Hm Hs) in H. by injection H as <- <-.
    + unfold HasSchedule in H.
      rewrite (run_bind _ _ _ _ _ (getEngine_run w)), Hm in H.
      by rewrite (load_panics _ _ _ Hs) in H.
  - rewrite (HasSchedule_absent _ _ Hm) in H. by injection H as <- <-.
Qed.

Lemma IsScheduledByOldEvent_Some (name : string) (t : time.Time) (w w' : World) (b : bool) :
  IsScheduledByOldEvent name t w = Some (b, w') → w' = w.
Proof.
  intros H. destruct (schedules (eng w) !! name) as [p|] eqn:Hm.
  - destruct (store w !! p) as [s|] eqn:Hs.
    + rewrite (IsScheduledByOldEvent_present _ _ _ _ _ Hm Hs) in H. by injection H as <- <-.
    + unfold IsScheduledByOldEvent in H.
      rewrite (run_bind _ _ _ _ _ (getEngine_run w)), Hm in H.
      by rewrite (load_panics _ _ _ Hs) in H.
  - rewrite (IsScheduledByOldEvent_absent _ _ _ Hm) in H. by injection H as <- <-.
Qed.


(** Whatever happened since the locked section of [Schedule], the
    [DeleteSchedule] of its rollback leaves no entry for the node. *)
Lemma DeleteSchedule_removes (name : string) (w w' : World) :
  DeleteSchedule name w = Some (tt, w') →
  schedules (eng w') !! name = None
  ∧ HasSchedule name w' = Some ((false, false), w').
Proof.
  intros H.
  assert (Hm : schedules (eng w') !! name = None).
  { apply DeleteSchedule_Some in H as [(p & s & _ & _ & ->)|(Hm & ->)]; [|done].
    apply lookup_delete_eq. }
  split; [done|]. by apply HasSchedule_absent.
Qed.

(** ** What the timer callback computes *)

Ltac unfold_callback :=
  unfold timerFires, timerCallback, callbackStart, callbackFinish, recordDrainFailure,
    announceDrainFailure, recordDrainSuccess, announceDrainSuccess,
    setTimer, setFinish, setFailed, modify, load, emit,
    getWorld, putWorld, panic, mbind, M_bind, mret, M_ret.

Ltac read_store Hs :=
  cbn; rewrite ?Hs; cbn;
  repeat (rewrite list_lookup_insert_eq by (rewrite ?length_insert; eapply lookup_lt_Some, Hs);
          cbn);
  rewrite ?list_insert_insert_eq, <- ?app_assoc; cbn.

Lemma timerFires_drain_failed (p : addr) (err : errorValue) (now : time.Time)
    (announceErr : error) (w : World) (s : schedule) :
  store w !! p = Some s →
  tstate (timer s) = TimerArmed →
  timerFires p (Some err) now announceErr w
  = Some (tt, mkWorld (eng w)
                (<[p := mkSchedule (when s) 1 now
                          (mkTimer TimerFired (fnode (timer s)) (fwhen (timer s)))]> (store w))
                (trace w ++ [Event eventReasonDrainStarting "Draining node";
                             CallDrain (fnode (timer s));
                             Log Info "Failed to drain";
                             StatNodesDrained tagResultFailed;
                             Event eventReasonDrainFailed "Draining failed: %v";
                             CallMarkDrain (fnode (timer s)) (fwhen (timer s)) now true]
                         ++ match announceErr with
                            | Some _ => [Log Error "Failed to place condition following drain failure"]
                            | None => []
                            end)).
Proof.
  intros Hs Harmed. unfold_callback. cbn. rewrite Hs, Harmed. read_store Hs.
  destruct announceErr; cbn; rewrite <- ?app_assoc; done.
Qed.

Lemma timerFires_drained (p : addr) (now : time.Time)
    (announceErr : error) (w : World) (s : schedule) :
  store w !! p = Some s →
  tstate (timer s) = TimerArmed →
  timerFires p None now announceErr w
  = Some (tt, mkWorld (eng w)
                (<[p := mkSchedule (when s) (failed s) now
                          (mkTimer TimerFired (fnode (timer s)) (fwhen (timer s)))]> (store w))
                (trace w ++ [Event eventReasonDrainStarting "Draining node";
                             CallDrain (fnode (timer s));
                             Log Info "Drained";
                             StatNodesDrained tagResultSucceeded;
                             Event eventReasonDrainSucceeded "Drained node";
                             CallMarkDrain (fnode (timer s)) (fwhen (timer s)) now false]
                         ++ match announceErr with
                            | Some err =>
                                [Event eventReasonDrainFailed "Failed to place drain condition: %v";
                                 Log Error
                                   (String.append
                                      "Failed to place condition following drain success : "
                                      (errorText err))]
                            | None => []
                            end)).
Proof.
  intros Hs Harmed. unfold_callback. cbn. rewrite Hs, Harmed. read_store Hs.
  destruct announceErr; cbn; rewrite <- ?app_assoc; done.
Qed.

(** ** What a step may change *)

Lemma keeps_refl (s : schedule) : keeps s s.
Proof. by split. Qed.

Lemma keeps_trans (s1 s2 s3 : schedule) : keeps s1 s2 → keeps s2 s3 → keeps s1 s3.
Proof. intros [Hw1 Hf1] [Hw2 Hf2]. split; [congruence|auto]. Qed.

Lemma follows_refl (w : World) : follows w w.
Proof.
  split; [done|]. split; [lia|]. intros p s Hs. exists s. split; [done|apply keeps_refl].
Qed.

Lemma follows_trans (w1 w2 w3 : World) : follows w1 w2 → follows w2 w3 → follows w1 w3.
Proof.
  intros (Hp1 & Hl1 & Hs1) (Hp2 & Hl2 & Hs2).
  split; [congruence|]. split; [lia|].
  intros p s Hs. destruct (Hs1 p s Hs) as (s2 & Hs2' & Hk1).
  destruct (Hs2 p s2 Hs2') as (s3 & Hs3 & Hk2).
  exists s3. split; [done|]. by eapply keeps_trans.
Qed.

Lemma follows_trace (w : World) (tr : list effect) :
  follows w (mkWorld (eng w) (store w) tr).
Proof.
  split; [done|]. split; [cbn; lia|]. intros p s Hs. exists s. split; [done|apply keeps_refl].
Qed.

Lemma follows_modify (w w' : World) (p : addr) (f : schedule → schedule) :
  (∀ s, keeps s (f s)) →
  modify p f w = Some (tt, w') →
  follows w w' ∧ eng w' = eng w.
Proof.
  intros Hf (s & Hs & ->)%modify_Some. split; [|done].
  split; [done|]. split; [cbn; lia|]. unfold objectsKept. cbn.
  intros q sq Hq. destruct (decide (q = p)) as [->|Hne].
  - exists (f s). rewrite list_lookup_insert_eq by (by eapply lookup_lt_Some).
    split; [done|]. assert (sq = s) as -> by congruence. apply Hf.
  - exists sq. rewrite list_lookup_insert_ne by done. split; [done|apply keeps_refl].
Qed.

Lemma follows_setTimer (w w' : World) (p : addr) (t : Timer) :
  setTimer p t w = Some (tt, w') → follows w w' ∧ eng w' = eng w.
Proof. apply follows_modify. intros s. by split. Qed.

Lemma follows_setFinish (w w' : World) (p : addr) (t : time.Time) :
  setFinish p t w = Some (tt, w') → follows w w' ∧ eng w' = eng w.
Proof. apply follows_modify. intros s. by split. Qed.

Lemma follows_setFailed (w w' : World) (p : addr) :
  setFailed p w = Some (tt, w') → follows w w' ∧ eng w' = eng w.
Proof. apply follows_modify. intros s. by split. Qed.

Lemma WhenNextSchedule_later (d : DrainSchedules) (now : time.Time) :
  0 ≤ period d → lastDrainScheduledFor d ≤ WhenNextSchedule d now.
Proof. intros Hp. rewrite WhenNextSchedule_max. lia. Qed.

Lemma follows_scheduled (w : World) (node : string) (now : time.Time) :
  0 ≤ period (eng w) → follows w (scheduled node now w).
Proof.
  intros Hp. split; [done|]. split; [by apply WhenNextSchedule_later|].
  intros p s Hs. exists s. split; [|apply keeps_refl].
  cbn -[WhenNextSchedule]. rewrite lookup_app_l; [done|by eapply lookup_lt_Some].
Qed.

Lemma follows_DeleteSchedule (w w' : World) (name : string) :
  DeleteSchedule name w = Some (tt, w') →
  follows w w'
  ∧ lastDrainScheduledFor (eng w') = lastDrainScheduledFor (eng w).
Proof.
  intros [(p & s & Hm & Hs & ->)|(Hm & ->)]%DeleteSchedule_Some.
  - split; [|done]. split; [done|]. split; [cbn; lia|]. unfold objectsKept. cbn.
    intros q sq Hq. destruct (decide (q = p)) as [->|Hne].
    + eexists. rewrite list_lookup_insert_eq by (by eapply lookup_lt_Some).
      split; [done|]. assert (sq = s) as -> by congruence. by split.
    + exists sq. rewrite list_lookup_insert_ne by done. split; [done|apply keeps_refl].
  - split; [apply follows_trace|done].
Qed.

(** What one atomic action does to [lastDrainScheduledFor]: nothing, unless
    the action is the locked section of [Schedule] for a node without entry,
    which moves it to the next scheduling time. *)
Lemma step_lastDrainScheduledFor (σ σ' : System) (a : action) :
  step σ a σ' →
  period (eng (world σ')) = period (eng (world σ))
  ∧ (lastDrainScheduledFor (eng (world σ')) = lastDrainScheduledFor (eng (world σ))
     ∨ ∃ node now, a = ActScheduleLocked node now
         ∧ lastDrainScheduledFor (eng (world σ')) = WhenNextSchedule (eng (world σ)) now).
Proof.
  destruct 1 as [node now r w w' cb H|name w w' cb H|name r w w' cb H|name t r w w' cb H
                |e w w' cb H|p s w w' cb Hs Harmed H|p now w w' cb Hcb H
                |p now w w' cb Hcb H|p w w' cb Hcb H]; cbn.
  - apply ScheduleLocked_Some in H as [(p & s & _ & _ & _ & ->)|(_ & _ & ->)].
    + by split; [|left].
    + split; [done|]. right. by exists node, now.
  - apply DeleteSchedule_Some in H as [(p & s & _ & _ & ->)|(_ & ->)]; by split; [|left].
  - apply HasSchedule_Some in H. injection H as -> _. by split; [|left].
  - apply IsScheduledByOldEvent_Some in H as ->. by split; [|left].
  - rewrite emit_run in H. injection H as <-. by split; [|left].
  - apply follows_setTimer in H as [_ ->]. by split; [|left].
  - apply follows_setFinish in H as [_ ->]. by split; [|left].
  - apply follows_setFinish in H as [_ ->]. by split; [|left].
  - apply follows_setFailed in H as [_ ->]. by split; [|left].
Qed.

Lemma objectsKept_refl (w : World) : objectsKept w w.
Proof. intros p s Hs. exists s. split; [done|apply keeps_refl]. Qed.

Lemma objectsKept_store (w w' : World) : store w' = store w → objectsKept w w'.
Proof. intros Heq p s Hs. exists s. rewrite Heq. split; [done|apply keeps_refl]. Qed.

Lemma objectsKept_trans (w1 w2 w3 : World) :
  objectsKept w1 w2 → objectsKept w2 w3 → objectsKept w1 w3.
Proof.
  intros H1 H2 p s Hs. destruct (H1 p s Hs) as (s2 & Hs2 & Hk1).
  destruct (H2 p s2 Hs2) as (s3 & Hs3 & Hk2).
  exists s3. split; [done|]. by eapply keeps_trans.
Qed.

Lemma objectsKept_scheduled (w : World) (node : string) (now : time.Time) :
  objectsKept w (scheduled node now w).
Proof.
  intros p s Hs. exists s. split; [|apply keeps_refl].
  cbn -[WhenNextSchedule]. rewrite lookup_app_l; [done|by eapply lookup_lt_Some].
Qed.

Lemma step_objects (σ σ' : System) (a : action) :
  step σ a σ' → objectsKept (world σ) (world σ').
Proof.
  destruct 1 as [node now r w w' cb H|name w w' cb H|name r w w' cb H|name t r w w' cb H
                |e w w' cb H|p s w w' cb Hs Harmed H|p now w w' cb Hcb H
                |p now w w' cb Hcb H|p w w' cb Hcb H]; cbn in *.
  - apply ScheduleLocked_Some in H as [(p & s & _ & _ & _ & ->)|(_ & _ & ->)].
    + apply objectsKept_refl.
    + apply objectsKept_scheduled.
  - by apply follows_DeleteSchedule in H as [(_ & _ & H) _].
  - apply HasSchedule_Some in H. injection H as _ Hst. by apply objectsKept_store.
  - apply IsScheduledByOldEvent_Some in H as ->. apply objectsKept_refl.
  - rewrite emit_run in H. injection H as <-. by apply objectsKept_store.
  - by apply follows_setTimer in H as [(_ & _ & H) _].
  - by apply follows_setFinish in H as [(_ & _ & H) _].
  - by apply follows_setFinish in H as [(_ & _ & H) _].
  - by apply follows_setFailed in H as [(_ & _ & H) _].
Qed.

Lemma steps_objects (σ σ' : System) (l : list action) :
  steps σ l σ' → objectsKept (world σ) (world σ').
Proof.
  induction 1 as [σ|σ a σ1 l σ2 Hstep Hsteps IH].
  - apply objectsKept_refl.
  - eapply objectsKept_trans; [by eapply step_objects|done].
Qed.

Lemma step_follows (σ σ' : System) (a : action) :
  0 ≤ period (eng (world σ)) →
  step σ a σ' →
  follows (world σ) (world σ').
Proof.
  intros Hp Hstep.
  destruct (step_lastDrainScheduledFor _ _ _ Hstep) as [Hper [Hsame|(node & now & _ & Hl)]].
  - split; [done|]. split; [lia|]. by eapply step_objects.
  - split; [done|]. split; [|by eapply step_objects].
    rewrite Hl. by apply WhenNextSchedule_later.
Qed.

Lemma steps_follows (σ σ' : System) (l : list action) :
  0 ≤ period (eng (world σ)) →
  steps σ l σ' →
  follows (world σ) (world σ').
Proof.
  intros Hp Hsteps. induction Hsteps as [σ|σ a σ1 l σ2 Hstep Hsteps IH].
  - apply follows_refl.
  - pose proof (step_follows _ _ _ Hp Hstep) as Hf.
    eapply follows_trans; [exact Hf|]. apply IH.
    destruct Hf as [-> _]. done.
Qed.

(** ** Well-formedness is kept *)

Lemma wf_store (w : World) (d : DrainSchedules) (st : list schedule) (tr : list effect) :
  wf w →
  schedules d ⊆ schedules (eng w) →
  (length (store w) ≤ length st)%nat →
  wf (mkWorld d st tr).
Proof.
  intros Hwf Hsub Hlen name p Hm. cbn in *.
  assert (Hm' : schedules (eng w) !! name = Some p) by (by eapply lookup_weaken).
  specialize (Hwf name p Hm'). cbn in Hwf. lia.
Qed.

Lemma wf_modify (w w' : World) (p : addr) (f : schedule → schedule) :
  wf w → modify p f w = Some (tt, w') → wf w'.
Proof.
  intros Hwf (s & Hs & ->)%modify_Some.
  apply (wf_store w); [done|done|by rewrite length_insert].
Qed.

Lemma wf_scheduled (w : World) (node : string) (now : time.Time) :
  wf w → wf (scheduled node now w).
Proof.
  intros Hwf name p. cbn -[WhenNextSchedule].
  rewrite length_app. cbn. intros [[-> <-]|[_ Hm]]%lookup_insert_Some; [lia|].
  specialize (Hwf name p Hm). cbn in Hwf. lia.
Qed.

Lemma step_wf (σ σ' : System) (a : action) :
  wf (world σ) → step σ a σ' → wf (world σ').
Proof.
  intros Hwf.
  destruct 1 as [node now r w w' cb H|name w w' cb H|name r w w' cb H|name t r w w' cb H
                |e w w' cb H|p s w w' cb Hs Harmed H|p now w w' cb Hcb H
                |p now w w' cb Hcb H|p w w' cb Hcb H]; cbn in *.
  - apply ScheduleLocked_Some in H as [(p & s & _ & _ & _ & ->)|(_ & _ & ->)];
      [done|by apply wf_scheduled].
  - apply DeleteSchedule_Some in H as [(p & s & _ & _ & ->)|(_ & ->)].
    + apply (wf_store w); [done|apply delete_subseteq|by rewrite length_insert].
    + by apply (wf_store w).
  - apply HasSchedule_Some in H. injection H as He Hst.
    destruct w'. cbn in *. subst. by apply (wf_store w).
  - by apply IsScheduledByOldEvent_Some in H as ->.
  - rewrite emit_run in H. injection H as <-. by apply (wf_store w).
  - by eapply wf_modify.
  - by eapply wf_modify.
  - by eapply wf_modify.
  - by eapply wf_modify.
Qed.

Lemma steps_wf (σ σ' : System) (l : list action) :
  wf (world σ) → steps σ l σ' → wf (world σ').
Proof.
  intros Hwf Hsteps. induction Hsteps as [σ|σ a σ1 l σ2 Hstep Hsteps IH]; [done|].
  apply IH. by eapply step_wf.
Qed.

(** ** A run of an operation is a run of the transition system *)

Lemma steps_app (σ1 σ2 σ3 : System) (l1 l2 : list action) :
  steps σ1 l1 σ2 → steps σ2 l2 σ3 → steps σ1 (l1 ++ l2) σ3.
Proof.
  intros H1 H2. induction H1 as [σ|σ a σ1 l σ2 Hstep Hsteps IH]; [done|].
  cbn. eapply steps_cons; [done|]. by apply IH.
Qed.

Lemma steps_effects (w : World) (cb : gmap addr stage) (es : list effect) :
  steps (mkSystem w cb) (ActEffect <$> es)
        (mkSystem (mkWorld (eng w) (store w) (trace w ++ es)) cb).
Proof.
  revert w. induction es as [|e es IH]; intros w.
  - cbn. rewrite app_nil_r. destruct w. apply steps_nil.
  - cbn. eapply steps_cons; [apply step_effect, emit_run|].
    specialize (IH (mkWorld (eng w) (store w) (trace w ++ [e]))).
    cbn in IH. by rewrite <- app_assoc in IH.
Qed.

Lemma DeleteSchedule_scheduled (node : string) (now : time.Time) (w : World)
    (tr : list effect) :
  schedules (eng w) !! node = None →
  DeleteSchedule node (mkWorld (eng (scheduled node now w)) (store (scheduled node now w)) tr)
  = Some (tt, mkWorld (eng (rolledBack node now w)) (store (rolledBack node now w)) tr).
Proof.
  intros Hm.
  match goal with |- DeleteSchedule _ ?w2 = _ =>
    rewrite (DeleteSchedule_present node w2 (length (store w)) _
               (lookup_insert_eq _ _ _) (store_snoc_lookup _ _))
  end.
  cbn -[WhenNextSchedule].
  by rewrite store_snoc_insert, delete_insert_eq, (delete_id _ _ Hm).
Qed.

Lemma Schedule_Some (node : string) (now : time.Time) (announce : error)
    (w w' : World) (r : time.Time * error) :
  Schedule node now announce w = Some (r, w') →
  (∃ p s, schedules (eng w) !! node = Some p ∧ store w !! p = Some s
          ∧ r = (when s, NewAlreadyScheduledError) ∧ w' = w)
  ∨ (schedules (eng w) !! node = None ∧ announce = None
     ∧ r = (WhenNextSchedule (eng w) now, None) ∧ w' = announced node now w)
  ∨ (schedules (eng w) !! node = None
     ∧ ∃ err, announce = Some err ∧ r = (time.zero, Some err)
              ∧ w' = rolledBack node now w).
Proof.
  intros H. destruct (schedules (eng w) !! node) as [p|] eqn:Hm.
  - left. unfold Schedule in H. apply bind_Some in H as (x & w1 & Hl & H).
    apply ScheduleLocked_Some in Hl as [(p' & s & Hm' & Hs & -> & ->)|(Hm' & _)];
      [|congruence].
    injection H as <- <-. exists p', s. split; [congruence|done].
  - right. destruct announce as [err|].
    + right. rewrite (Schedule_rolled_back _ _ _ _ Hm) in H. injection H as <- <-.
      split; [done|]. by exists err.
    + left. rewrite (Schedule_announced _ _ _ Hm) in H. by injection H as <- <-.
Qed.

Lemma Schedule_steps (node : string) (now : time.Time) (announce : error)
    (w w' : World) (r : time.Time * error) (cb : gmap addr stage) :
  Schedule node now announce w = Some (r, w') →
  ∃ l, steps (mkSystem w cb) l (mkSystem w' cb).
Proof.
  intros [(p & s & Hm & Hs & -> & ->)
         |[(Hm & -> & -> & ->)|(Hm & err & -> & -> & ->)]]%Schedule_Some.
  - exists [ActScheduleLocked node now].
    eapply steps_cons; [|apply steps_nil].
    eapply step_schedule. apply (ScheduleLocked_present _ _ _ _ _ Hm Hs).
  - eexists (ActScheduleLocked node now :: (ActEffect <$> [_])).
    eapply steps_cons; [eapply step_schedule; by apply ScheduleLocked_absent|].
    apply (steps_effects (scheduled node now w) cb [_]).
  - eexists ((ActScheduleLocked node now :: (ActEffect <$> [_; _]))
             ++ [ActDeleteSchedule node]).
    eapply steps_app.
    + eapply steps_cons; [eapply step_schedule; by apply ScheduleLocked_absent|].
      apply (steps_effects (scheduled node now w) cb [_; _]).
    + eapply steps_cons; [|apply steps_nil].
      apply step_delete. by apply DeleteSchedule_scheduled.
Qed.

Lemma steps_to (σ σ1 σ2 : System) (l : list action) :
  steps σ l σ1 → σ1 = σ2 → steps σ l σ2.
Proof. by intros H <-. Qed.

Lemma timerFires_Some (p : addr) (drainErr : error) (now : time.Time)
    (announceErr : error) (w w' : World) :
  timerFires p drainErr now announceErr w = Some (tt, w') →
  ∃ s, store w !! p = Some s
    ∧ (tstate (timer s) ≠ TimerArmed ∧ w' = w
       ∨ tstate (timer s) = TimerArmed).
Proof.
  intros H. destruct (store w !! p) as [s|] eqn:Hs.
  - exists s. split; [done|].
    destruct (decide (tstate (timer s) = TimerArmed)) as [Harmed|Hne]; [by right|left].
    rewrite (timerFires_not_armed _ _ _ _ _ _ Hs Hne) in H. by injection H as <-.
  - unfold timerFires in H. by rewrite (load_panics _ _ _ Hs) in H.
Qed.

Lemma timerFires_steps (p : addr) (drainErr : error) (now : time.Time)
    (announceErr : error) (w w' : World) (cb : gmap addr stage) :
  timerFires p drainErr now announceErr w = Some (tt, w') →
  ∃ l cb', steps (mkSystem w cb) l (mkSystem w' cb').
Proof.
  intros H. destruct (timerFires_Some _ _ _ _ _ _ H) as (s & Hs & [[_ ->]|Harmed]).
  { exists [], cb. apply steps_nil. }
  assert (Hp : (p < length (store w))%nat) by (by eapply lookup_lt_Some).
  destruct drainErr as [err|].
  - rewrite (timerFires_drain_failed _ _ _ _ _ _ Hs Harmed) in H. injection H as <-.
    eexists ([ActFire p] ++ (ActEffect <$> [_; _; _]) ++ [ActDrainFailed p now; ActSetFailed p]
             ++ (ActEffect <$> _)), _.
    eapply steps_app.
    { eapply steps_cons; [|apply steps_nil].
      eapply step_fire; [exact Hs|exact Harmed|by apply modify_run]. }
    eapply steps_app; [apply steps_effects|]. cbn.
    eapply steps_cons.
    { apply step_drain_failed; [apply lookup_insert_eq|].
      apply modify_run. cbn. by apply list_lookup_insert_eq. }
    eapply steps_cons.
    { apply step_set_failed; [apply lookup_insert_eq|].
      apply modify_run. cbn. apply list_lookup_insert_eq. by rewrite length_insert. }
    eapply steps_to; [apply steps_effects|]. cbn.
    rewrite !list_insert_insert_eq, <- !app_assoc. cbn. reflexivity.
  - rewrite (timerFires_drained _ _ _ _ _ Hs Harmed) in H. injection H as <-.
    eexists ([ActFire p] ++ (ActEffect <$> [_; _; _]) ++ [ActDrained p now]
             ++ (ActEffect <$> _)), _.
    eapply steps_app.
    { eapply steps_cons; [|apply steps_nil].
      eapply step_fire; [exact Hs|exact Harmed|by apply modify_run]. }
    eapply steps_app; [apply steps_effects|]. cbn.
    eapply steps_cons.
    { apply step_drained; [apply lookup_insert_eq|].
      apply modify_run. cbn. by apply list_lookup_insert_eq. }
    eapply steps_to; [apply steps_effects|]. cbn.
    rewrite !list_insert_insert_eq, <- !app_assoc. cbn. reflexivity.
Qed.

Lemma run_steps (o : operation) (w w' : World) (cb : gmap addr stage) :
  run o w = Some (tt, w') →
  ∃ l cb', steps (mkSystem w cb) l (mkSystem w' cb').
Proof.
  destruct o as [node now announce|name|name|name t|p drainErr now announceErr]; cbn.
  - intros (r & w1 & H & [= <-])%bind_Some.
    destruct (Schedule_steps _ _ _ _ _ _ cb H) as [l Hl]. by exists l, cb.
  - intros (r & w1 & H & [= <-])%bind_Some.
    exists [ActHasSchedule name], cb.
    eapply steps_cons; [by eapply step_has|apply steps_nil].
  - intros H. exists [ActDeleteSchedule name], cb.
    eapply steps_cons; [by eapply step_delete|apply steps_nil].
  - intros (r & w1 & H & [= <-])%bind_Some.
    exists [ActIsScheduledByOldEvent name t], cb.
    eapply steps_cons; [by eapply step_old|apply steps_nil].
  - apply timerFires_steps.
Qed.

Lemma runAll_steps (l : list operation) (w w' : World) (cb : gmap addr stage) :
  runAll l w = Some (tt, w') →
  ∃ acts cb', steps (mkSystem w cb) acts (mkSystem w' cb').
Proof.
  revert w cb. induction l as [|o l IH]; intros w cb; cbn.
  - intros [= <-]. exists [], cb. apply steps_nil.
  - intros ([] & w1 & Ho & Hl)%bind_Some.
    destruct (run_steps _ _ _ cb Ho) as (a1 & cb1 & H1).
    destruct (IH _ cb1 Hl) as (a2 & cb2 & H2).
    exists (a1 ++ a2), cb2. by eapply steps_app.
Qed.

Lemma runAll_follows (l : list operation) (w w' : World) :
  0 ≤ period (eng w) → runAll l w = Some (tt, w') → follows w w'.
Proof.
  intros Hp H. destruct (runAll_steps _ _ _ ∅ H) as (acts & cb' & Hsteps).
  by apply steps_follows in Hsteps.
Qed.

Lemma run_wf (o : operation) (w w' : World) :
  wf w → run o w = Some (tt, w') → wf w'.
Proof.
  intros Hwf H. destruct (run_steps _ _ _ ∅ H) as (acts & cb' & Hsteps).
  by apply steps_wf in Hsteps.
Qed.

(** On a well-formed world an operation does not panic, and the world it
    leaves is well-formed. *)
Lemma no_panic (o : operation) (w : World) :
  wf w → enabled o w → ∃ w', run o w = Some (tt, w') ∧ wf w'.
Proof.
  intros Hwf Hen.
  assert (∃ w', run o w = Some (tt, w')) as [w' H]; [|exists w'; split; [done|by eapply run_wf]].
  destruct o as [node now announce|name|name|name t|p drainErr now announceErr]; cbn in *.
  - destruct (schedules (eng w) !! node) as [p|] eqn:Hm.
    + destruct (wf_lookup _ _ _ Hwf Hm) as [s Hs]. eexists.
      by rewrite (run_bind _ _ _ _ _ (Schedule_present _ now announce _ _ _ Hm Hs)).
    + destruct announce as [err|]; eexists.
      * by rewrite (run_bind _ _ _ _ _ (Schedule_rolled_back _ now err _ Hm)).
      * by rewrite (run_bind _ _ _ _ _ (Schedule_announced _ now _ Hm)).
  - destruct (schedules (eng w) !! name) as [p|] eqn:Hm.
    + destruct (wf_lookup _ _ _ Hwf Hm) as [s Hs]. eexists.
      by rewrite (run_bind _ _ _ _ _ (HasSchedule_present _ _ _ _ Hm Hs)).
    + eexists. by rewrite (run_bind _ _ _ _ _ (HasSchedule_absent _ _ Hm)).
  - destruct (schedules (eng w) !! name) as [p|] eqn:Hm.
    + destruct (wf_lookup _ _ _ Hwf Hm) as [s Hs]. eexists.
      apply (DeleteSchedule_present _ _ _ _ Hm Hs).
    + eexists. by apply DeleteSchedule_absent.
  - destruct (schedules (eng w) !! name) as [p|] eqn:Hm.
    + destruct (wf_lookup _ _ _ Hwf Hm) as [s Hs]. eexists.
      by rewrite (run_bind _ _ _ _ _ (IsScheduledByOldEvent_present _ t _ _ _ Hm Hs)).
    + eexists. by rewrite (run_bind _ _ _ _ _ (IsScheduledByOldEvent_absent _ t _ Hm)).
  - apply lookup_lt_is_Some in Hen as [s Hs].
    destruct (decide (tstate (timer s) = TimerArmed)) as [Harmed|Hne].
    + destruct drainErr as [err|]; eexists.
      * by apply timerFires_drain_failed.
      * by apply timerFires_drained.
    + eexists. by eapply timerFires_not_armed.
Qed.

Lemma run_engine (o : operation) (w w' : World) :
  run o w = Some (tt, w') →
  period (eng w') = period (eng w)
  ∧ (lastDrainScheduledFor (eng w') = lastDrainScheduledFor (eng w)
     ∨ ∃ node now announce, o = OpSchedule node now announce
         ∧ schedules (eng w) !! node = None
         ∧ lastDrainScheduledFor (eng w') = WhenNextSchedule (eng w) now).
Proof.
  destruct o as [node now announce|name|name|name t|p drainErr now announceErr]; cbn.
  - intros (r & w1 & H & [= <-])%bind_Some.
    apply Schedule_Some in H
      as [(p & s & Hm & Hs & -> & ->)
         |[(Hm & -> & -> & ->)|(Hm & err & -> & -> & ->)]].
    + by split; [|left].
    + split; [done|]. right. by exists node, now, None.
    + split; [done|]. right. by exists node, now, (Some err).
  - intros (r & w1 & H & [= <-])%bind_Some.
    apply HasSchedule_Some in H. injection H as -> _. by split; [|left].
  - intros [(p & s & _ & _ & ->)|(_ & ->)]%DeleteSchedule_Some; by split; [|left].
  - intros (r & w1 & H & [= <-])%bind_Some.
    apply IsScheduledByOldEvent_Some in H as ->. by split; [|left].
  - intros H. destruct (timerFires_Some _ _ _ _ _ _ H) as (s & Hs & [[_ ->]|Harmed]).
    { by split; [|left]. }
    destruct drainErr as [err|].
    + rewrite (timerFires_drain_failed _ _ _ _ _ _ Hs Harmed) in H. injection H as <-.
      by split; [|left].
    + rewrite (timerFires_drained _ _ _ _ _ Hs Harmed) in H. injection H as <-.
      by split; [|left].
Qed.

(** ** [lastDrainScheduledFor] *)

(** C7: with a period that is not negative, every operation of the engine
    leaves [lastDrainScheduledFor] as it was or moves it to a time that is
    not before it; only [Schedule] of a node without entry moves it, to the
    later of [lastDrainScheduledFor + period] and the floor. *)
Theorem lastDrainScheduledFor_monotone (o : operation) (w : World) :
  wf w →
  enabled o w →
  0 ≤ period (eng w) →
  ∃ w', run o w = Some (tt, w')
    ∧ period (eng w') = period (eng w)
    ∧ lastDrainScheduledFor (eng w) ≤ lastDrainScheduledFor (eng w')
    ∧ (lastDrainScheduledFor (eng w') = lastDrainScheduledFor (eng w)
       ∨ ∃ node now announce, o = OpSchedule node now announce
           ∧ schedules (eng w) !! node = None
           ∧ lastDrainScheduledFor (eng w')
             = Z.max (lastDrainScheduledFor (eng w) + period (eng w))
                     (now + SetConditionTimeout + time.Second)).
Proof.
  intros Hwf Hen Hp. destruct (no_panic _ _ Hwf Hen) as (w' & Hrun & _).
  exists w'. split; [done|].
  destruct (run_engine _ _ _ Hrun) as [Hper [Hsame|(node & now & ann & -> & Hm & Hlast)]].
  - split; [done|]. split; [lia|]. by left.
  - split; [done|]. rewrite Hlast, WhenNextSchedule_max. split; [lia|].
    right. by exists node, now, ann.
Qed.

Lemma lastDrainScheduledFor_monotone_witness :
  (wf worldPending
   ∧ enabled (OpSchedule "nodeB" t0 None) worldPending
   ∧ 0 ≤ period (eng worldPending))
  ∧ ∃ w', run (OpSchedule "nodeB" t0 None) worldPending = Some (tt, w')
    ∧ period (eng w') = period (eng worldPending)
    ∧ lastDrainScheduledFor (eng worldPending) ≤ lastDrainScheduledFor (eng w')
    ∧ (lastDrainScheduledFor (eng w') = lastDrainScheduledFor (eng worldPending)
       ∨ ∃ node now announce, OpSchedule "nodeB" t0 None = OpSchedule node now announce
           ∧ schedules (eng worldPending) !! node = None
           ∧ lastDrainScheduledFor (eng w')
             = Z.max (lastDrainScheduledFor (eng worldPending) + period (eng worldPending))
                     (now + SetConditionTimeout + time.Second)).
Proof.
  assert (Hwf : wf worldPending) by by_computation.
  assert (Hen : enabled (OpSchedule "nodeB" t0 None) worldPending) by exact I.
  assert (Hp : 0 ≤ period (eng worldPending)) by (vm_compute; discriminate).
  split; [done|].
  exact (lastDrainScheduledFor_monotone (OpSchedule "nodeB" t0 None) worldPending Hwf Hen Hp).
Defined.

(** The same over any interleaving of atomic actions. *)
Lemma lastDrainScheduledFor_steps (σ σ' : System) (l : list action) :
  0 ≤ period (eng (world σ)) →
  steps σ l σ' →
  lastDrainScheduledFor (eng (world σ)) ≤ lastDrainScheduledFor (eng (world σ')).
Proof. intros Hp Hsteps. by destruct (steps_follows _ _ _ Hp Hsteps) as (_ & Hl & _). Qed.

Lemma Schedule_succeeds (node : string) (now t : time.Time) (w w' : World) :
  Schedule node now None w = Some ((t, None), w') →
  schedules (eng w) !! node = None
  ∧ t = WhenNextSchedule (eng w) now
  ∧ w' = announced node now w.
Proof.
  intros [(p & s & _ & _ & [=] & _)|[(Hm & _ & [= ->] & ->)|(_ & err & [=] & _)]]%Schedule_Some.
  done.
Qed.

(** C6: of two successful [Schedule] calls, the second, whatever the engine
    was asked in between, computes a time that is at least the time computed
    by the first plus the period (the period not being negative); when the
    second call follows the first at once, its time is the later of that sum
    and the floor, hence the sum itself when the floor does not exceed it. *)
Theorem Schedule_spacing (w w1 w2 w3 : World) (nodeA nodeB : string)
    (nowA nowB whenA whenB : time.Time) (between : list operation) :
  0 ≤ period (eng w) →
  Schedule nodeA nowA None w = Some ((whenA, None), w1) →
  runAll between w1 = Some (tt, w2) →
  Schedule nodeB nowB None w2 = Some ((whenB, None), w3) →
  lastDrainScheduledFor (eng w1) = whenA
  ∧ whenA + period (eng w) ≤ whenB
  ∧ (between = [] →
     nodeA ≠ nodeB
     ∧ whenB = Z.max (whenA + period (eng w)) (nowB + SetConditionTimeout + time.Second)
     ∧ (nowB + SetConditionTimeout + time.Second ≤ whenA + period (eng w) →
        whenB = whenA + period (eng w))).
Proof.
  intros Hp (HmA & -> & ->)%Schedule_succeeds Hbetween (HmB & -> & ->)%Schedule_succeeds.
  split; [done|].
  assert (Hf : follows (announced nodeA nowA w) w2) by (by apply (runAll_follows between)).
  destruct Hf as (Hper & Hlast & _). cbn -[WhenNextSchedule] in Hper, Hlast.
  split.
  - rewrite (WhenNextSchedule_max (eng w2)), Hper. lia.
  - intros ->. injection Hbetween as <-. split; [|split].
    + intros <-. cbn in HmB. by rewrite lookup_insert_eq in HmB.
    + by rewrite (WhenNextSchedule_max (eng (announced nodeA nowA w))).
    + intros Hfloor. rewrite (WhenNextSchedule_max (eng (announced nodeA nowA w))).
      cbn -[WhenNextSchedule]. lia.
Qed.

Lemma Schedule_spacing_witness :
  (0 ≤ period (eng (NewDrainSchedules (5 * minute)))
   ∧ Schedule "nodeA" t0 None (NewDrainSchedules (5 * minute))
     = Some ((t0 + 11 * time.Second, None), worldPending)
   ∧ runAll [] worldPending = Some (tt, worldPending)
   ∧ Schedule "nodeB" t0 None worldPending
     = Some ((t0 + 11 * time.Second + 5 * minute, None),
             after [OpSchedule "nodeB" t0 None] worldPending))
  ∧ lastDrainScheduledFor (eng worldPending) = t0 + 11 * time.Second
  ∧ t0 + 11 * time.Second + period (eng (NewDrainSchedules (5 * minute)))
    ≤ t0 + 11 * time.Second + 5 * minute
  ∧ (@nil operation = [] →
     "nodeA" ≠ "nodeB"
     ∧ t0 + 11 * time.Second + 5 * minute
       = Z.max (t0 + 11 * time.Second + period (eng (NewDrainSchedules (5 * minute))))
               (t0 + SetConditionTimeout + time.Second)
     ∧ (t0 + SetConditionTimeout + time.Second
        ≤ t0 + 11 * time.Second + period (eng (NewDrainSchedules (5 * minute))) →
        t0 + 11 * time.Second + 5 * minute
        = t0 + 11 * time.Second + period (eng (NewDrainSchedules (5 * minute))))).
Proof.
  assert (Hp : 0 ≤ period (eng (NewDrainSchedules (5 * minute))))
    by (vm_compute; discriminate).
  assert (HA : Schedule "nodeA" t0 None (NewDrainSchedules (5 * minute))
               = Some ((t0 + 11 * time.Second, None), worldPending))
    by (vm_compute; reflexivity).
  assert (Hb : runAll [] worldPending = Some (tt, worldPending)) by reflexivity.
  assert (HB : Schedule "nodeB" t0 None worldPending
               = Some ((t0 + 11 * time.Second + 5 * minute, None),
                       after [OpSchedule "nodeB" t0 None] worldPending))
    by (vm_compute; reflexivity).
  split; [done|].
  exact (Schedule_spacing (NewDrainSchedules (5 * minute)) worldPending worldPending
           (after [OpSchedule "nodeB" t0 None] worldPending)
           "nodeA" "nodeB" t0 t0 (t0 + 11 * time.Second)
           (t0 + 11 * time.Second + 5 * minute) [] Hp HA Hb HB).
Defined.

(** ** A drain that fails *)

Lemma untilFailureAnnouncement_run (p : addr) (now : time.Time) (w : World) (s : schedule) :
  store w !! p = Some s →
  untilFailureAnnouncement p now w
  = Some (tt, mkWorld (eng w)
                (<[p := mkSchedule (when s) 1 now
                          (mkTimer TimerFired (fnode (timer s)) (fwhen (timer s)))]> (store w))
                (trace w ++ [Event eventReasonDrainStarting "Draining node";
                             CallDrain (fnode (timer s));
                             Log Info "Failed to drain";
                             StatNodesDrained tagResultFailed;
                             Event eventReasonDrainFailed "Draining failed: %v"])).
Proof.
  intros Hs. unfold untilFailureAnnouncement. unfold_callback. read_store Hs. done.
Qed.

Lemma announceDrainFailure_run (node : string) (t : time.Time) (p : addr)
    (announceErr : error) (w : World) (s : schedule) :
  store w !! p = Some s →
  announceDrainFailure node t p announceErr w
  = Some (tt, mkWorld (eng w) (store w)
                (trace w ++ CallMarkDrain node t (finish s) true
                   :: match announceErr with
                      | Some _ => [Log Error "Failed to place condition following drain failure"]
                      | None => []
                      end)).
Proof.
  intros Hs. unfold_callback. cbn. rewrite Hs. cbn.
  destruct announceErr; cbn; rewrite <- ?app_assoc; done.
Qed.

(** Once the failed flag of the object behind an entry is set, the queries
    answer "scheduled and failed" and "not scheduled by an old event". *)
Lemma failed_entry_queries (w : World) (node : string) (p : addr) (s : schedule) :
  schedules (eng w) !! node = Some p →
  store w !! p = Some s →
  failed s = 1 →
  fst <$> HasSchedule node w = Some (true, true)
  ∧ ∀ t, IsScheduledByOldEvent node t w = Some (false, w).
Proof.
  intros Hm Hs Hf. split.
  - rewrite (HasSchedule_present _ _ _ _ Hm Hs). unfold isFailed. by rewrite Hf.
  - intros t. rewrite (IsScheduledByOldEvent_present _ _ _ _ _ Hm Hs).
    unfold isFailed. rewrite Hf. cbn. by rewrite andb_false_r.
Qed.

(** C5: when the timer of a schedule fires and [Drain] returns an error, the
    callback writes a [finish] that is not the zero time and sets the failed
    flag, and only then makes the "drain failed" announcement, with those
    values.  After the callback [HasSchedule] answers [(true, true)] for the
    node and [IsScheduledByOldEvent] answers [false] for every time, and so
    they do after any further activity that leaves the entry of the node in
    place.  An error of the announcement adds a line to the log and nothing
    else. *)
Theorem drain_failure_recorded (w : World) (node : string) (p : addr) (s : schedule)
    (err : errorValue) (now : time.Time) (announceErr : error) :
  schedules (eng w) !! node = Some p →
  store w !! p = Some s →
  tstate (timer s) = TimerArmed →
  now ≠ time.zero →
  ∃ w1 w' s',
    timerFires p (Some err) now announceErr w = Some (tt, w')
    ∧ untilFailureAnnouncement p now w = Some (tt, w1)
    ∧ announceDrainFailure (fnode (timer s)) (fwhen (timer s)) p announceErr w1
      = Some (tt, w')
    ∧ store w1 !! p = Some s'
    ∧ finish s' = now ∧ finish s' ≠ time.zero
    ∧ failed s' = 1 ∧ isFailed s' = true
    ∧ when s' = when s
    ∧ engineState w' = engineState w1
    ∧ eng w' = eng w
    ∧ trace w'
      = trace w1 ++ CallMarkDrain (fnode (timer s)) (fwhen (timer s)) (finish s') true
          :: match announceErr with
             | Some _ => [Log Error "Failed to place condition following drain failure"]
             | None => []
             end
    ∧ fst <$> HasSchedule node w' = Some (true, true)
    ∧ (∀ t, IsScheduledByOldEvent node t w' = Some (false, w'))
    ∧ (∀ cb l σ,
         steps (mkSystem w' cb) l σ →
         schedules (eng (world σ)) !! node = Some p →
         fst <$> HasSchedule node (world σ) = Some (true, true)
         ∧ ∀ t, IsScheduledByOldEvent node t (world σ) = Some (false, world σ)).
Proof.
  intros Hm Hs Harmed Hnow.
  assert (Hp : (p < length (store w))%nat) by (by eapply lookup_lt_Some).
  pose proof (untilFailureAnnouncement_run p now w s Hs) as H1.
  set (s' := mkSchedule (when s) 1 now
               (mkTimer TimerFired (fnode (timer s)) (fwhen (timer s)))) in *.
  set (w1 := mkWorld (eng w) (<[p := s']> (store w)) _) in H1.
  assert (Hs1 : store w1 !! p = Some s') by (by apply list_lookup_insert_eq).
  pose proof (announceDrainFailure_run (fnode (timer s)) (fwhen (timer s)) p
                announceErr w1 s' Hs1) as H2.
  set (w' := mkWorld (eng w1) (store w1) _) in H2.
  assert (Hall : timerFires p (Some err) now announceErr w = Some (tt, w')).
  { rewrite (timerFires_drain_failed _ _ _ _ _ _ Hs Harmed).
    unfold w', w1. cbn. rewrite <- app_assoc. done. }
  assert (Hq : fst <$> HasSchedule node w' = Some (true, true)
               ∧ ∀ t, IsScheduledByOldEvent node t w' = Some (false, w'))
    by (by apply (failed_entry_queries w' node p s')).
  exists w1, w', s'.
  repeat (split; [done|]).
  split; [apply Hq|]. split; [apply Hq|].
  intros cb l σ Hsteps Hmσ.
  destruct (steps_objects _ _ _ Hsteps p s' Hs1) as (sσ & Hsσ & _ & Hfσ).
  apply (failed_entry_queries _ _ p sσ); [done|done|by apply Hfσ].
Qed.

Lemma drain_failure_recorded_witness :
  (schedules (eng worldPending) !! "nodeA" = Some 0%nat
   ∧ store worldPending !! 0%nat = Some schedulePending
   ∧ tstate (timer schedulePending) = TimerArmed
   ∧ t0 + 12 * time.Second ≠ time.zero)
  ∧ ∃ w1 w' s',
    timerFires 0 (Some (OtherError "eviction failed")) (t0 + 12 * time.Second)
               (Some (OtherError "timed out")) worldPending = Some (tt, w')
    ∧ untilFailureAnnouncement 0 (t0 + 12 * time.Second) worldPending = Some (tt, w1)
    ∧ announceDrainFailure (fnode (timer schedulePending)) (fwhen (timer schedulePending))
        0 (Some (OtherError "timed out")) w1
      = Some (tt, w')
    ∧ store w1 !! 0%nat = Some s'
    ∧ finish s' = t0 + 12 * time.Second ∧ finish s' ≠ time.zero
    ∧ failed s' = 1 ∧ isFailed s' = true
    ∧ when s' = when schedulePending
    ∧ engineState w' = engineState w1
    ∧ eng w' = eng worldPending
    ∧ trace w'
      = trace w1 ++ CallMarkDrain (fnode (timer schedulePending))
                      (fwhen (timer schedulePending)) (finish s') true
          :: [Log Error "Failed to place condition following drain failure"]
    ∧ fst <$> HasSchedule "nodeA" w' = Some (true, true)
    ∧ (∀ t, IsScheduledByOldEvent "nodeA" t w' = Some (false, w'))
    ∧ (∀ cb l σ,
         steps (mkSystem w' cb) l σ →
         schedules (eng (world σ)) !! "nodeA" = Some 0%nat →
         fst <$> HasSchedule "nodeA" (world σ) = Some (true, true)
         ∧ ∀ t, IsScheduledByOldEvent "nodeA" t (world σ) = Some (false, world σ)).
Proof.
  assert (H1 : schedules (eng worldPending) !! "nodeA" = Some 0%nat)
    by (vm_compute; reflexivity).
  assert (H2 : store worldPending !! 0%nat = Some schedulePending)
    by (vm_compute; reflexivity).
  assert (H3 : tstate (timer schedulePending) = TimerArmed) by reflexivity.
  assert (H4 : t0 + 12 * time.Second ≠ time.zero) by (vm_compute; discriminate).
  split; [done|].
  exact (drain_failure_recorded worldPending "nodeA" 0%nat schedulePending
           (OtherError "eviction failed") (t0 + 12 * time.Second)
           (Some (OtherError "timed out")) H1 H2 H3 H4).
Defined.

(** * Further properties of the engine *)

(** ** A new engine *)

(** X1: a new engine has no schedule: for every name [HasSchedule] answers
    [(false, false)] and [IsScheduledByOldEvent] answers [false], both
    without any effect, and the first [Schedule] gets the later of the period
    (counted from the zero time) and the floor. *)
Theorem NewDrainSchedules_empty (period : time.Duration) (name : string)
    (t now : time.Time) :
  HasSchedule name (NewDrainSchedules period)
  = Some ((false, false), NewDrainSchedules period)
  ∧ IsScheduledByOldEvent name t (NewDrainSchedules period)
    = Some (false, NewDrainSchedules period)
  ∧ fst <$> Schedule name now None (NewDrainSchedules period)
    = Some (Z.max period (now + SetConditionTimeout + time.Second), None).
Proof.
  assert (Hm : schedules (eng (NewDrainSchedules period)) !! name = None)
    by apply lookup_empty.
  split; [by apply HasSchedule_absent|].
  split; [by apply IsScheduledByOldEvent_absent|].
  rewrite (Schedule_announced _ _ _ Hm). cbn -[WhenNextSchedule Z.max].
  by rewrite WhenNextSchedule_max.
Qed.

(** ** The error of [Schedule] *)

(** X2: when the announcement does not itself fail with an "already
    scheduled" error, the error returned by [Schedule] is one exactly when
    the node had an entry, and it is [nil] exactly when the node had none and
    the announcement succeeded. *)
Theorem Schedule_error_kind (w : World) (node : string) (now : time.Time)
    (announce : error) :
  wf w →
  IsAlreadyScheduledError announce = false →
  ∃ t e w', Schedule node now announce w = Some ((t, e), w')
    ∧ (IsAlreadyScheduledError e = true ↔ is_Some (schedules (eng w) !! node))
    ∧ (e = None ↔ schedules (eng w) !! node = None ∧ announce = None).
Proof.
  intros Hwf Hann. destruct (schedules (eng w) !! node) as [p|] eqn:Hm.
  - destruct (wf_lookup _ _ _ Hwf Hm) as [s Hs].
    eexists _, _, _. split; [apply (Schedule_present _ _ _ _ _ _ Hm Hs)|].
    split; [by split|]. split; [done|by intros [? _]].
  - destruct announce as [err|].
    + eexists _, _, _. split; [by apply Schedule_rolled_back|].
      split; [|split; [done|by intros [_ ?]]].
      rewrite Hann. split; [done|by intros [? ?]].
    + eexists _, _, _. split; [by apply Schedule_announced|].
      split; [|done]. split; [done|by intros [? ?]].
Qed.

Lemma Schedule_error_kind_witness :
  (wf worldPending ∧ IsAlreadyScheduledError (Some (OtherError "timed out")) = false)
  ∧ ∃ t e w',
      Schedule "nodeA" t0 (Some (OtherError "timed out")) worldPending = Some ((t, e), w')
      ∧ (IsAlreadyScheduledError e = true
         ↔ is_Some (schedules (eng worldPending) !! "nodeA"))
      ∧ (e = None ↔ schedules (eng worldPending) !! "nodeA" = None
                     ∧ Some (OtherError "timed out") = None).
Proof.
  assert (Hwf : wf worldPending) by by_computation.
  assert (Ha : IsAlreadyScheduledError (Some (OtherError "timed out")) = false)
    by reflexivity.
  split; [done|].
  exact (Schedule_error_kind worldPending "nodeA" t0 (Some (OtherError "timed out")) Hwf Ha).
Defined.

(** ** What [Schedule] leaves alone *)

(** X4: whatever its outcome, [Schedule] leaves the entries of the other
    nodes and all the objects that existed before the call as they were. *)
Theorem Schedule_frame (w : World) (node : string) (now : time.Time)
    (announce : error) :
  wf w →
  ∃ r w', Schedule node now announce w = Some (r, w')
    ∧ period (eng w') = period (eng w)
    ∧ (∀ other, other ≠ node →
         schedules (eng w') !! other = schedules (eng w) !! other)
    ∧ (∀ p s, store w !! p = Some s → store w' !! p = Some s).
Proof.
  intros Hwf. destruct (schedules (eng w) !! node) as [p|] eqn:Hm.
  - destruct (wf_lookup _ _ _ Hwf Hm) as [s Hs].
    eexists _, w. split; [apply (Schedule_present _ _ _ _ _ _ Hm Hs)|]. done.
  - assert (Hkeep : ∀ x p s, store w !! p = Some s → (store w ++ [x]) !! p = Some s).
    { intros x p s Hs. rewrite lookup_app_l; [done|by eapply lookup_lt_Some]. }
    destruct announce as [err|].
    + exists (time.zero, Some err), (rolledBack node now w).
      split; [by apply Schedule_rolled_back|]. split; [done|]. split; [done|].
      intros p s Hs. by apply Hkeep.
    + exists (WhenNextSchedule (eng w) now, None), (announced node now w).
      split; [by apply Schedule_announced|]. split; [done|]. split.
      * intros other Hne. cbn. by rewrite lookup_insert_ne.
      * intros p s Hs. by apply Hkeep.
Qed.

Lemma Schedule_frame_witness :
  wf worldPending
  ∧ ∃ r w', Schedule "nodeB" t0 None worldPending = Some (r, w')
    ∧ period (eng w') = period (eng worldPending)
    ∧ (∀ other, other ≠ "nodeB" →
         schedules (eng w') !! other = schedules (eng worldPending) !! other)
    ∧ (∀ p s, store worldPending !! p = Some s → store w' !! p = Some s).
Proof.
  assert (Hwf : wf worldPending) by by_computation.
  split; [exact Hwf|]. exact (Schedule_frame worldPending "nodeB" t0 None Hwf).
Defined.

(** X5: a failed announcement does not take back [lastDrainScheduledFor]:
    after the rollback it still is the time computed for the node that was
    given up, so the next node scheduled, this one included, gets a time
    that is at least one period later than that one. *)
Theorem rollback_keeps_lastDrainScheduledFor (w : World) (node next : string)
    (now now' : time.Time) (err : errorValue) :
  schedules (eng w) !! node = None →
  schedules (eng w) !! next = None →
  ∃ w' t' w'',
    Schedule node now (Some err) w = Some ((time.zero, Some err), w')
    ∧ lastDrainScheduledFor (eng w') = WhenNextSchedule (eng w) now
    ∧ Schedule next now' None w' = Some ((t', None), w'')
    ∧ t' = Z.max (WhenNextSchedule (eng w) now + period (eng w))
                 (now' + SetConditionTimeout + time.Second)
    ∧ WhenNextSchedule (eng w) now + period (eng w) ≤ t'.
Proof.
  intros Hm Hnext.
  exists (rolledBack node now w), (WhenNextSchedule (eng (rolledBack node now w)) now'),
    (announced next now' (rolledBack node now w)).
  split; [by apply Schedule_rolled_back|]. split; [done|].
  split; [by apply Schedule_announced|].
  rewrite (WhenNextSchedule_max (eng (rolledBack node now w))).
  cbn -[WhenNextSchedule Z.max]. split; [done|lia].
Qed.

Lemma rollback_keeps_lastDrainScheduledFor_witness :
  (schedules (eng worldPending) !! "nodeC" = None
   ∧ schedules (eng worldPending) !! "nodeB" = None)
  ∧ ∃ w' t' w'',
    Schedule "nodeC" t0 (Some (OtherError "timed out")) worldPending
    = Some ((time.zero, Some (OtherError "timed out")), w')
    ∧ lastDrainScheduledFor (eng w') = WhenNextSchedule (eng worldPending) t0
    ∧ Schedule "nodeB" (t0 + minute) None w' = Some ((t', None), w'')
    ∧ t' = Z.max (WhenNextSchedule (eng worldPending) t0 + period (eng worldPending))
                 (t0 + minute + SetConditionTimeout + time.Second)
    ∧ WhenNextSchedule (eng worldPending) t0 + period (eng worldPending) ≤ t'.
Proof.
  assert (HC : schedules (eng worldPending) !! "nodeC" = None)
    by (vm_compute; reflexivity).
  assert (HB : schedules (eng worldPending) !! "nodeB" = None)
    by (vm_compute; reflexivity).
  split; [done|].
  exact (rollback_keeps_lastDrainScheduledFor worldPending "nodeC" "nodeB" t0 (t0 + minute)
           (OtherError "timed out") HC HB).
Defined.

(** ** What [DeleteSchedule] removes and what it leaves alone *)

(** X6: [DeleteSchedule] leaves the entries of the other names,
    [lastDrainScheduledFor] and the period as they were; it frees no object,
    changes at most the object of the deleted entry, and of that one only
    the timer: its [when], [finish] and failed flag are kept. *)
Theorem DeleteSchedule_frame (w : World) (name : string) :
  wf w →
  ∃ w', DeleteSchedule name w = Some (tt, w')
    ∧ lastDrainScheduledFor (eng w') = lastDrainScheduledFor (eng w)
    ∧ period (eng w') = period (eng w)
    ∧ (∀ other, other ≠ name →
         schedules (eng w') !! other = schedules (eng w) !! other)
    ∧ length (store w') = length (store w)
    ∧ ∀ q s, store w !! q = Some s →
        ∃ s', store w' !! q = Some s'
          ∧ when s' = when s ∧ finish s' = finish s ∧ failed s' = failed s
          ∧ (schedules (eng w) !! name ≠ Some q → s' = s).
Proof.
  intros Hwf. destruct (schedules (eng w) !! name) as [p|] eqn:Hm.
  - destruct (wf_lookup _ _ _ Hwf Hm) as [s Hs].
    eexists. split; [apply (DeleteSchedule_present _ _ _ _ Hm Hs)|].
    split; [done|]. split; [done|]. split.
    { intros other Hne. cbn. by rewrite lookup_delete_ne. }
    split; [by cbn; rewrite length_insert|].
    intros q sq Hq. cbn. destruct (decide (q = p)) as [->|Hne].
    + eexists. rewrite list_lookup_insert_eq by (by eapply lookup_lt_Some).
      split; [done|]. assert (sq = s) as -> by congruence.
      split; [done|]. split; [done|]. split; [done|]. by intros [].
    + exists sq. by rewrite list_lookup_insert_ne.
  - eexists. split; [by apply DeleteSchedule_absent|].
    split; [done|]. split; [done|]. split; [done|]. split; [done|].
    intros q sq Hq. by exists sq.
Qed.

Lemma DeleteSchedule_frame_witness :
  wf worldFailed
  ∧ ∃ w', DeleteSchedule "nodeA" worldFailed = Some (tt, w')
    ∧ lastDrainScheduledFor (eng w') = lastDrainScheduledFor (eng worldFailed)
    ∧ period (eng w') = period (eng worldFailed)
    ∧ (∀ other, other ≠ "nodeA" →
         schedules (eng w') !! other = schedules (eng worldFailed) !! other)
    ∧ length (store w') = length (store worldFailed)
    ∧ ∀ q s, store worldFailed !! q = Some s →
        ∃ s', store w' !! q = Some s'
          ∧ when s' = when s ∧ finish s' = finish s ∧ failed s' = failed s
          ∧ (schedules (eng worldFailed) !! "nodeA" ≠ Some q → s' = s).
Proof.
  assert (Hwf : wf worldFailed) by by_computation.
  split; [exact Hwf|]. exact (DeleteSchedule_frame worldFailed "nodeA" Hwf).
Defined.

(** X7: deleting a name twice is deleting it once: the second call finds no
    entry, changes nothing of the engine state and only logs a warning. *)
Theorem DeleteSchedule_twice (w : World) (name : string) :
  wf w →
  ∃ w1 w2, DeleteSchedule name w = Some (tt, w1)
    ∧ DeleteSchedule name w1 = Some (tt, w2)
    ∧ engineState w2 = engineState w1
    ∧ trace w2 = trace w1 ++ [Log Warn "Entry not found in deletion schedule"].
Proof.
  intros Hwf.
  assert (∃ w1, DeleteSchedule name w = Some (tt, w1)) as [w1 H1].
  { destruct (schedules (eng w) !! name) as [p|] eqn:Hm.
    - destruct (wf_lookup _ _ _ Hwf Hm) as [s Hs].
      eexists. apply (DeleteSchedule_present _ _ _ _ Hm Hs).
    - eexists. by apply DeleteSchedule_absent. }
  destruct (DeleteSchedule_removes _ _ _ H1) as [Hm1 _].
  eexists w1, _. split; [done|]. split; [by apply DeleteSchedule_absent|]. done.
Qed.

Lemma DeleteSchedule_twice_witness :
  wf worldPending
  ∧ ∃ w1 w2, DeleteSchedule "nodeA" worldPending = Some (tt, w1)
    ∧ DeleteSchedule "nodeA" w1 = Some (tt, w2)
    ∧ engineState w2 = engineState w1
    ∧ trace w2 = trace w1 ++ [Log Warn "Entry not found in deletion schedule"].
Proof.
  assert (Hwf : wf worldPending) by by_computation.
  split; [exact Hwf|]. exact (DeleteSchedule_twice worldPending "nodeA" Hwf).
Defined.

(** ** A drain that succeeds, and what a finished schedule does *)

(** X8: when the timer of the schedule of a node fires and [Drain] returns
    no error, the callback writes [finish] and leaves the failed flag alone,
    then announces the success with that [finish].  [HasSchedule] then
    answers [(true, false)] and [IsScheduledByOldEvent] answers whether
    [when] is strictly before the time asked.  An error of the announcement
    adds an event and a line to the log, which ends with the text of the
    error, and nothing else. *)
Theorem drain_success_recorded (w : World) (node : string) (p : addr) (s : schedule)
    (now : time.Time) (announceErr : error) :
  schedules (eng w) !! node = Some p →
  store w !! p = Some s →
  tstate (timer s) = TimerArmed →
  failed s ≠ 1 →
  now ≠ time.zero →
  ∃ w',
    timerFires p None now announceErr w = Some (tt, w')
    ∧ eng w' = eng w
    ∧ store w'
      = <[p := mkSchedule (when s) (failed s) now
                 (mkTimer TimerFired (fnode (timer s)) (fwhen (timer s)))]> (store w)
    ∧ trace w'
      = trace w ++ [Event eventReasonDrainStarting "Draining node";
                    CallDrain (fnode (timer s));
                    Log Info "Drained";
                    StatNodesDrained tagResultSucceeded;
                    Event eventReasonDrainSucceeded "Drained node";
                    CallMarkDrain (fnode (timer s)) (fwhen (timer s)) now false]
          ++ match announceErr with
             | Some err =>
                 [Event eventReasonDrainFailed "Failed to place drain condition: %v";
                  Log Error (String.append
                               "Failed to place condition following drain success : "
                               (errorText err))]
             | None => []
             end
    ∧ fst <$> HasSchedule node w' = Some (true, false)
    ∧ ∀ t, IsScheduledByOldEvent node t w' = Some (bool_decide (when s < t), w').
Proof.
  intros Hm Hs Harmed Hf Hnow.
  assert (Hp : (p < length (store w))%nat) by (by eapply lookup_lt_Some).
  eexists. split; [by apply timerFires_drained|].
  split; [done|]. split; [done|]. split; [done|].
  set (s' := mkSchedule _ _ _ _).
  set (w' := mkWorld _ _ _).
  assert (Hs' : store w' !! p = Some s') by (by apply list_lookup_insert_eq).
  assert (Hnf : isFailed s' = false) by (by apply Z.eqb_neq).
  split.
  - rewrite (HasSchedule_present node w' p s' Hm Hs'). cbn. by rewrite Hnf.
  - intros t. rewrite (IsScheduledByOldEvent_present node t w' p s' Hm Hs').
    rewrite Hnf. cbn. unfold time.Before, time.IsZero.
    assert ((now =? 0) = false) as -> by (by apply Z.eqb_neq).
    rewrite !andb_true_r. do 2 f_equal.
    destruct (Z.ltb_spec (when s) t); [by rewrite bool_decide_eq_true_2|
                                       rewrite bool_decide_eq_false_2; [done|lia]].
Qed.

Lemma drain_success_recorded_witness :
  (schedules (eng worldPending) !! "nodeA" = Some 0%nat
   ∧ store worldPending !! 0%nat = Some schedulePending
   ∧ tstate (timer schedulePending) = TimerArmed
   ∧ failed schedulePending ≠ 1
   ∧ t0 + 12 * time.Second ≠ time.zero)
  ∧ ∃ w',
    timerFires 0 None (t0 + 12 * time.Second) (Some (OtherError "timed out")) worldPending
    = Some (tt, w')
    ∧ eng w' = eng worldPending
    ∧ store w'
      = <[0%nat := mkSchedule (when schedulePending) (failed schedulePending)
                 (t0 + 12 * time.Second)
                 (mkTimer TimerFired (fnode (timer schedulePending))
                                     (fwhen (timer schedulePending)))]>
          (store worldPending)
    ∧ trace w'
      = trace worldPending
          ++ [Event eventReasonDrainStarting "Draining node";
              CallDrain (fnode (timer schedulePending));
              Log Info "Drained";
              StatNodesDrained tagResultSucceeded;
              Event eventReasonDrainSucceeded "Drained node";
              CallMarkDrain (fnode (timer schedulePending)) (fwhen (timer schedulePending))
                            (t0 + 12 * time.Second) false]
          ++ [Event eventReasonDrainFailed "Failed to place drain condition: %v";
              Log Error "Failed to place condition following drain success : timed out"]
    ∧ fst <$> HasSchedule "nodeA" w' = Some (true, false)
    ∧ ∀ t, IsScheduledByOldEvent "nodeA" t w'
           = Some (bool_decide (when schedulePending < t), w').
Proof.
  assert (H1 : schedules (eng worldPending) !! "nodeA" = Some 0%nat)
    by (vm_compute; reflexivity).
  assert (H2 : store worldPending !! 0%nat = Some schedulePending)
    by (vm_compute; reflexivity).
  assert (H3 : tstate (timer schedulePending) = TimerArmed) by reflexivity.
  assert (H4 : failed schedulePending ≠ 1) by (vm_compute; discriminate).
  assert (H5 : t0 + 12 * time.Second ≠ time.zero) by (vm_compute; discriminate).
  split; [done|].
  exact (drain_success_recorded worldPending "nodeA" 0%nat schedulePending
           (t0 + 12 * time.Second) (Some (OtherError "timed out")) H1 H2 H3 H4 H5).
Defined.

(** X9: the callback never removes the entry of its node: after the timer
    has fired, whatever [Drain] and the announcement returned, the map is as
    before, and a [Schedule] for the node is still refused with the "already
    scheduled" error and the time of the finished schedule, without any
    change.  Only [DeleteSchedule] makes room for a new schedule. *)
Theorem finished_schedule_blocks (w : World) (node : string) (p : addr) (s : schedule)
    (drainErr : error) (now : time.Time) (announceErr : error)
    (now' : time.Time) (announce : error) :
  schedules (eng w) !! node = Some p →
  store w !! p = Some s →
  ∃ w', timerFires p drainErr now announceErr w = Some (tt, w')
    ∧ eng w' = eng w
    ∧ Schedule node now' announce w' = Some ((when s, NewAlreadyScheduledError), w').
Proof.
  intros Hm Hs.
  assert (Hp : (p < length (store w))%nat) by (by eapply lookup_lt_Some).
  destruct (decide (tstate (timer s) = TimerArmed)) as [Harmed|Hne].
  - destruct drainErr as [err|].
    + eexists. split; [by apply timerFires_drain_failed|]. split; [done|].
      match goal with |- Schedule _ _ _ ?w' = _ =>
        exact (Schedule_present node now' announce w' p _ Hm
                 (list_lookup_insert_eq (store w) p _ Hp))
      end.
    + eexists. split; [by apply timerFires_drained|]. split; [done|].
      match goal with |- Schedule _ _ _ ?w' = _ =>
        exact (Schedule_present node now' announce w' p _ Hm
                 (list_lookup_insert_eq (store w) p _ Hp))
      end.
  - exists w. split; [by eapply timerFires_not_armed|]. split; [done|].
    by apply (Schedule_present _ _ _ _ p s).
Qed.

Lemma finished_schedule_blocks_witness :
  (schedules (eng worldPending) !! "nodeA" = Some 0%nat
   ∧ store worldPending !! 0%nat = Some schedulePending)
  ∧ ∃ w',
    timerFires 0 (Some (OtherError "eviction failed")) (t0 + 12 * time.Second) None
               worldPending = Some (tt, w')
    ∧ eng w' = eng worldPending
    ∧ Schedule "nodeA" (t0 + minute) None w'
      = Some ((when schedulePending, NewAlreadyScheduledError), w').
Proof.
  assert (H1 : schedules (eng worldPending) !! "nodeA" = Some 0%nat)
    by (vm_compute; reflexivity).
  assert (H2 : store worldPending !! 0%nat = Some schedulePending)
    by (vm_compute; reflexivity).
  split; [done|].
  exact (finished_schedule_blocks worldPending "nodeA" 0%nat schedulePending
           (Some (OtherError "eviction failed")) (t0 + 12 * time.Second) None
           (t0 + minute) None H1 H2).
Defined.

(** ** Objects under interleavings *)

Lemma persists_refl (s : schedule) : persists s s.
Proof. by repeat split. Qed.

Lemma persists_trans (s1 s2 s3 : schedule) :
  persists s1 s2 → persists s2 s3 → persists s1 s3.
Proof.
  intros (Hw1 & Hn1 & Hf1 & Hx1 & Ht1) (Hw2 & Hn2 & Hf2 & Hx2 & Ht2).
  split; [congruence|]. split; [congruence|]. split; [congruence|].
  split; [auto|]. intros Hne. rewrite Ht2; [by apply Ht1|]. by rewrite Ht1.
Qed.

Lemma insert_persists (st : list schedule) (p : addr) (s s' : schedule) :
  st !! p = Some s →
  persists s s' →
  ∀ q sq, st !! q = Some sq → ∃ sq', <[p := s']> st !! q = Some sq' ∧ persists sq sq'.
Proof.
  intros Hs Hp q sq Hq. destruct (decide (q = p)) as [->|Hne].
  - exists s'. rewrite list_lookup_insert_eq by (by eapply lookup_lt_Some).
    split; [done|]. by assert (sq = s) as -> by congruence.
  - exists sq. rewrite list_lookup_insert_ne by done. split; [done|apply persists_refl].
Qed.

Lemma Stop_persists (s : schedule) :
  persists s (mkSchedule (when s) (failed s) (finish s) (Stop (timer s))).
Proof.
  unfold Stop. destruct (tstate (timer s)) eqn:Ht; repeat split; cbn; try done.
  all: by rewrite ?Ht.
Qed.

Lemma step_persists (σ σ' : System) (a : action) (p : addr) (s : schedule) :
  step σ a σ' →
  store (world σ) !! p = Some s →
  ∃ s', store (world σ') !! p = Some s' ∧ persists s s'.
Proof.
  intros Hstep Hs.
  destruct Hstep as [node now r w w' cb H|name w w' cb H|name r w w' cb H|name t r w w' cb H
                |e w w' cb H|q sq w w' cb Hq Harmed H|q now w w' cb Hcb H
                |q now w w' cb Hcb H|q w w' cb Hcb H]; cbn in *.
  - apply ScheduleLocked_Some in H as [(q & sq & _ & _ & _ & ->)|(_ & _ & ->)].
    + exists s. split; [done|apply persists_refl].
    + exists s. split; [|apply persists_refl].
      cbn -[WhenNextSchedule]. rewrite lookup_app_l; [done|by eapply lookup_lt_Some].
  - apply DeleteSchedule_Some in H as [(q & sq & _ & Hq & ->)|(_ & ->)].
    + cbn. eapply insert_persists; [exact Hq|apply Stop_persists|exact Hs].
    + exists s. split; [done|apply persists_refl].
  - apply HasSchedule_Some in H. injection H as _ Hst. rewrite Hst.
    exists s. split; [done|apply persists_refl].
  - apply IsScheduledByOldEvent_Some in H as ->.
    exists s. split; [done|apply persists_refl].
  - rewrite emit_run in H. injection H as <-.
    exists s. split; [done|apply persists_refl].
  - apply modify_Some in H as (sq' & Hq' & ->). cbn.
    eapply insert_persists; [exact Hq'| |exact Hs].
    assert (sq' = sq) as -> by congruence.
    repeat split; cbn; try done; by rewrite Harmed.
  - apply modify_Some in H as (sq' & Hq' & ->). cbn.
    eapply insert_persists; [exact Hq'| |exact Hs]. by repeat split.
  - apply modify_Some in H as (sq' & Hq' & ->). cbn.
    eapply insert_persists; [exact Hq'| |exact Hs]. by repeat split.
  - apply modify_Some in H as (sq' & Hq' & ->). cbn.
    eapply insert_persists; [exact Hq'| |exact Hs]. by repeat split.
Qed.

(** X10: whatever the engine and the callbacks do, in any interleaving, an
    object is never freed, its [when] and the node and time captured by its
    timer's function never change, its failed flag is never reset, and its
    timer, once stopped or fired, never changes state again (so it fires at
    most once, and never after it was stopped). *)
Theorem schedule_objects_persist (σ σ' : System) (l : list action)
    (p : addr) (s : schedule) :
  steps σ l σ' →
  store (world σ) !! p = Some s →
  ∃ s', store (world σ') !! p = Some s'
    ∧ when s' = when s
    ∧ fnode (timer s') = fnode (timer s)
    ∧ fwhen (timer s') = fwhen (timer s)
    ∧ (failed s = 1 → failed s' = 1)
    ∧ (tstate (timer s) ≠ TimerArmed → tstate (timer s') = tstate (timer s)).
Proof.
  intros Hsteps. revert s.
  induction Hsteps as [σ|σ a σ1 l σ2 Hstep Hsteps IH]; intros s Hs.
  - exists s. split; [done|apply persists_refl].
  - destruct (step_persists _ _ _ _ _ Hstep Hs) as (s1 & Hs1 & Hp1).
    destruct (IH s1 Hs1) as (s2 & Hs2 & Hp2).
    exists s2. split; [done|]. by apply (persists_trans s s1 s2).
Qed.

Lemma schedule_objects_persist_witness :
  (steps (mkSystem worldPending ∅) [ActDeleteSchedule "nodeA"] (mkSystem worldDeleted ∅)
   ∧ store (world (mkSystem worldPending ∅)) !! 0%nat = Some schedulePending)
  ∧ ∃ s', store (world (mkSystem worldDeleted ∅)) !! 0%nat = Some s'
    ∧ when s' = when schedulePending
    ∧ fnode (timer s') = fnode (timer schedulePending)
    ∧ fwhen (timer s') = fwhen (timer schedulePending)
    ∧ (failed schedulePending = 1 → failed s' = 1)
    ∧ (tstate (timer schedulePending) ≠ TimerArmed →
       tstate (timer s') = tstate (timer schedulePending)).
Proof.
  assert (H1 : steps (mkSystem worldPending ∅) [ActDeleteSchedule "nodeA"]
                     (mkSystem worldDeleted ∅)).
  { eapply steps_cons; [|apply steps_nil]. apply step_delete. vm_compute. reflexivity. }
  assert (H2 : store (world (mkSystem worldPending ∅)) !! 0%nat = Some schedulePending)
    by (vm_compute; reflexivity).
  split; [done|].
  exact (schedule_objects_persist _ _ _ 0%nat schedulePending H1 H2).
Defined.

Lemma Stop_not_armed_id (s : schedule) :
  tstate (timer s) ≠ TimerArmed →
  mkSchedule (when s) (failed s) (finish s) (Stop (timer s)) = s.
Proof.
  intros Hne. unfold Stop. destruct s as [t f fi tm]. cbn in *.
  by destruct (tstate tm).
Qed.

(** An object whose timer is not armed and whose callback is not running is
    never written again, and its timer does not fire. *)
Lemma step_settled (σ σ' : System) (a : action) (p : addr) (s : schedule) :
  step σ a σ' →
  store (world σ) !! p = Some s →
  tstate (timer s) ≠ TimerArmed →
  callbacks σ !! p = None →
  store (world σ') !! p = Some s ∧ callbacks σ' !! p = None ∧ a ≠ ActFire p.
Proof.
  intros Hstep Hs Hne Hcbp.
  destruct Hstep as [node now r w w' cb H|name w w' cb H|name r w w' cb H|name t r w w' cb H
                |e w w' cb H|q sq w w' cb Hq Harmed H|q now w w' cb Hcb H
                |q now w w' cb Hcb H|q w w' cb Hcb H]; cbn in *.
  - split; [|done].
    apply ScheduleLocked_Some in H as [(q & sq & _ & _ & _ & ->)|(_ & _ & ->)]; [done|].
    cbn -[WhenNextSchedule]. rewrite lookup_app_l; [done|by eapply lookup_lt_Some].
  - split; [|done].
    apply DeleteSchedule_Some in H as [(q & sq & _ & Hq & ->)|(_ & ->)]; [|done].
    cbn. destruct (decide (q = p)) as [->|Hqp].
    + assert (sq = s) as -> by congruence.
      rewrite Stop_not_armed_id by done. by rewrite list_insert_id.
    + by rewrite list_lookup_insert_ne.
  - split; [|done]. apply HasSchedule_Some in H. injection H as _ Hst. by rewrite Hst.
  - split; [|done]. by apply IsScheduledByOldEvent_Some in H as ->.
  - split; [|done]. rewrite emit_run in H. by injection H as <-.
  - assert (Hqp : q ≠ p) by (intros ->; congruence).
    apply modify_Some in H as (sq' & Hq' & ->). cbn.
    split; [by rewrite list_lookup_insert_ne|].
    split; [by rewrite lookup_insert_ne|congruence].
  - assert (Hqp : q ≠ p) by (intros ->; congruence).
    apply modify_Some in H as (sq' & Hq' & ->). cbn.
    split; [by rewrite list_lookup_insert_ne|].
    split; [by rewrite lookup_delete_ne|done].
  - assert (Hqp : q ≠ p) by (intros ->; congruence).
    apply modify_Some in H as (sq' & Hq' & ->). cbn.
    split; [by rewrite list_lookup_insert_ne|].
    split; [by rewrite lookup_insert_ne|done].
  - assert (Hqp : q ≠ p) by (intros ->; congruence).
    apply modify_Some in H as (sq' & Hq' & ->). cbn.
    split; [by rewrite list_lookup_insert_ne|].
    split; [by rewrite lookup_delete_ne|done].
Qed.

Lemma steps_settled (σ σ' : System) (l : list action) (p : addr) (s : schedule) :
  steps σ l σ' →
  store (world σ) !! p = Some s →
  tstate (timer s) ≠ TimerArmed →
  callbacks σ !! p = None →
  store (world σ') !! p = Some s ∧ callbacks σ' !! p = None ∧ ActFire p ∉ l.
Proof.
  intros Hsteps Hs Hne. induction Hsteps as [σ|σ a σ1 l σ2 Hstep Hsteps IH]; intros Hcb.
  - split; [done|]. split; [done|]. apply not_elem_of_nil.
  - destruct (step_settled _ _ _ _ _ Hstep Hs Hne Hcb) as (Hs1 & Hcb1 & Ha).
    destruct (IH Hs1 Hcb1) as (Hs2 & Hcb2 & Hl).
    split; [done|]. split; [done|].
    intros [?|?]%elem_of_cons; [congruence|done].
Qed.

(** X11: once [DeleteSchedule] has removed an entry whose callback is not
    running, the object of that entry is never written again, in any
    interleaving: its timer does not fire (it is stopped, if it had not fired
    before), and [finish] and the failed flag keep the values they had when
    the entry was deleted.  A schedule deleted before its timer fired is
    never drained. *)
Theorem deleted_schedule_is_final (w w1 : World) (cb : gmap addr stage)
    (name : string) (p : addr) (s : schedule) (l : list action) (σ' : System) :
  schedules (eng w) !! name = Some p →
  store w !! p = Some s →
  cb !! p = None →
  DeleteSchedule name w = Some (tt, w1) →
  steps (mkSystem w1 cb) l σ' →
  store (world σ') !! p
  = Some (mkSchedule (when s) (failed s) (finish s) (Stop (timer s)))
  ∧ tstate (Stop (timer s)) ≠ TimerArmed
  ∧ callbacks σ' !! p = None
  ∧ ActFire p ∉ l.
Proof.
  intros Hm Hs Hcb Hdel Hsteps.
  rewrite (DeleteSchedule_present _ _ _ _ Hm Hs) in Hdel. injection Hdel as <-.
  assert (Hp : (p < length (store w))%nat) by (by eapply lookup_lt_Some).
  split; [|split; [apply Stop_not_armed|]];
    eapply (steps_settled _ _ _ p) in Hsteps; try apply Hsteps; try done.
  all: try (cbn; by apply list_lookup_insert_eq).
  all: cbn; apply Stop_not_armed.
Qed.

Lemma deleted_schedule_is_final_witness :
  (schedules (eng worldPending) !! "nodeA" = Some 0%nat
   ∧ store worldPending !! 0%nat = Some schedulePending
   ∧ (∅ : gmap addr stage) !! 0%nat = None
   ∧ DeleteSchedule "nodeA" worldPending = Some (tt, worldDeleted)
   ∧ steps (mkSystem worldDeleted ∅) [ActScheduleLocked "nodeA" (t0 + minute)]
           (mkSystem (scheduled "nodeA" (t0 + minute) worldDeleted) ∅))
  ∧ store (world (mkSystem (scheduled "nodeA" (t0 + minute) worldDeleted) ∅)) !! 0%nat
    = Some (mkSchedule (when schedulePending) (failed schedulePending)
              (finish schedulePending) (Stop (timer schedulePending)))
  ∧ tstate (Stop (timer schedulePending)) ≠ TimerArmed
  ∧ callbacks (mkSystem (scheduled "nodeA" (t0 + minute) worldDeleted) ∅) !! 0%nat = None
  ∧ ActFire 0 ∉ [ActScheduleLocked "nodeA" (t0 + minute)].
Proof.
  assert (H1 : schedules (eng worldPending) !! "nodeA" = Some 0%nat)
    by (vm_compute; reflexivity).
  assert (H2 : store worldPending !! 0%nat = Some schedulePending)
    by (vm_compute; reflexivity).
  assert (H3 : (∅ : gmap addr stage) !! 0%nat = None) by reflexivity.
  assert (H4 : DeleteSchedule "nodeA" worldPending = Some (tt, worldDeleted))
    by (vm_compute; reflexivity).
  assert (H5 : steps (mkSystem worldDeleted ∅) [ActScheduleLocked "nodeA" (t0 + minute)]
                 (mkSystem (scheduled "nodeA" (t0 + minute) worldDeleted) ∅)).
  { eapply steps_cons; [|apply steps_nil].
    eapply step_schedule. apply ScheduleLocked_absent. vm_compute. reflexivity. }
  split; [done|].
  exact (deleted_schedule_is_final worldPending worldDeleted ∅ "nodeA" 0%nat
           schedulePending _ _ H1 H2 H3 H4 H5).
Defined.

(** X12: the outcome of a drain is final: once the callback of an object has
    run to its end, [finish], the failed flag and the timer of the object are
    never written again, in any interleaving, and the timer does not fire a
    second time. *)
Theorem drain_outcome_is_final (w w' : World) (cb : gmap addr stage) (p : addr)
    (s : schedule) (drainErr : error) (now : time.Time) (announceErr : error)
    (l : list action) (σ' : System) :
  store w !! p = Some s →
  tstate (timer s) = TimerArmed →
  cb !! p = None →
  timerFires p drainErr now announceErr w = Some (tt, w') →
  steps (mkSystem w' cb) l σ' →
  store (world σ') !! p
  = Some (mkSchedule (when s) (match drainErr with Some _ => 1 | None => failed s end) now
            (mkTimer TimerFired (fnode (timer s)) (fwhen (timer s))))
  ∧ store (world σ') !! p = store w' !! p
  ∧ ActFire p ∉ l.
Proof.
  intros Hs Harmed Hcb Hfire Hsteps.
  assert (Hp : (p < length (store w))%nat) by (by eapply lookup_lt_Some).
  assert (Hs' : store w' !! p
                = Some (mkSchedule (when s) (match drainErr with Some _ => 1 | None => failed s end) now
                          (mkTimer TimerFired (fnode (timer s)) (fwhen (timer s))))).
  { destruct drainErr as [err|].
    - rewrite (timerFires_drain_failed _ _ _ _ _ _ Hs Harmed) in Hfire.
      injection Hfire as <-. by apply list_lookup_insert_eq.
    - rewrite (timerFires_drained _ _ _ _ _ Hs Harmed) in Hfire.
      injection Hfire as <-. by apply list_lookup_insert_eq. }
  destruct (steps_settled _ _ _ p _ Hsteps Hs') as (Hfinal & _ & Hl); [done|done|].
  cbn in Hfinal. split; [done|]. split; [congruence|done].
Qed.

Lemma drain_outcome_is_final_witness :
  (store worldPending !! 0%nat = Some schedulePending
   ∧ tstate (timer schedulePending) = TimerArmed
   ∧ (∅ : gmap addr stage) !! 0%nat = None
   ∧ timerFires 0 (Some (OtherError "eviction failed")) (t0 + 12 * time.Second) None
                worldPending = Some (tt, worldFailed)
   ∧ steps (mkSystem worldFailed ∅) [ActScheduleLocked "nodeB" (t0 + minute)]
           (mkSystem (scheduled "nodeB" (t0 + minute) worldFailed) ∅))
  ∧ store (world (mkSystem (scheduled "nodeB" (t0 + minute) worldFailed) ∅)) !! 0%nat
    = Some (mkSchedule (when schedulePending) 1 (t0 + 12 * time.Second)
              (mkTimer TimerFired (fnode (timer schedulePending))
                                  (fwhen (timer schedulePending))))
  ∧ store (world (mkSystem (scheduled "nodeB" (t0 + minute) worldFailed) ∅)) !! 0%nat
    = store worldFailed !! 0%nat
  ∧ ActFire 0 ∉ [ActScheduleLocked "nodeB" (t0 + minute)].
Proof.
  assert (H1 : store worldPending !! 0%nat = Some schedulePending)
    by (vm_compute; reflexivity).
  assert (H2 : tstate (timer schedulePending) = TimerArmed) by reflexivity.
  assert (H3 : (∅ : gmap addr stage) !! 0%nat = None) by reflexivity.
  assert (H4 : timerFires 0 (Some (OtherError "eviction failed")) (t0 + 12 * time.Second)
                 None worldPending = Some (tt, worldFailed))
    by (vm_compute; reflexivity).
  assert (H5 : steps (mkSystem worldFailed ∅) [ActScheduleLocked "nodeB" (t0 + minute)]
                 (mkSystem (scheduled "nodeB" (t0 + minute) worldFailed) ∅)).
  { eapply steps_cons; [|apply steps_nil].
    eapply step_schedule. apply ScheduleLocked_absent. vm_compute. reflexivity. }
  split; [done|].
  exact (drain_outcome_is_final worldPending worldFailed ∅ 0%nat schedulePending
           (Some (OtherError "eviction failed")) (t0 + 12 * time.Second) None _ _
           H1 H2 H3 H4 H5).
Defined.

(** ** The states the engine can reach *)

Lemma mapConsistent_mono (w : World) (d' : DrainSchedules) (st' : list schedule)
    (tr : list effect) :
  mapConsistent w →
  schedules d' ⊆ schedules (eng w) →
  length st' = length (store w) →
  (∀ p s', st' !! p = Some s' →
     ∃ s, store w !! p = Some s ∧ when s' = when s
          ∧ fnode (timer s') = fnode (timer s) ∧ fwhen (timer s') = fwhen (timer s)) →
  mapConsistent (mkWorld d' st' tr).
Proof.
  intros (Hwf & Hinj & Hname & Hwhen) Hsub Hlen Hst.
  split; [|split; [|split]]; cbn.
  - apply (wf_store w); [done|done|lia].
  - intros n1 n2 p H1 H2. apply (Hinj n1 n2 p); by eapply lookup_weaken.
  - intros name p s' Hm Hs'. destruct (Hst p s' Hs') as (s & Hs & _ & Hn & _).
    rewrite Hn. apply (Hname name p s); [by eapply lookup_weaken|done].
  - intros p s' Hs'. destruct (Hst p s' Hs') as (s & Hs & Hw & _ & Hf).
    rewrite Hf, Hw. by apply (Hwhen p s).
Qed.

Lemma mapConsistent_insert (w : World) (d' : DrainSchedules) (q : addr)
    (sq s' : schedule) (tr : list effect) :
  mapConsistent w →
  schedules d' ⊆ schedules (eng w) →
  store w !! q = Some sq →
  when s' = when sq →
  fnode (timer s') = fnode (timer sq) →
  fwhen (timer s') = fwhen (timer sq) →
  mapConsistent (mkWorld d' (<[q := s']> (store w)) tr).
Proof.
  intros HI Hsub Hq Hw Hn Hf.
  apply (mapConsistent_mono w); [done|done|by rewrite length_insert|].
  intros p s Hs. destruct (decide (p = q)) as [->|Hne].
  - rewrite list_lookup_insert_eq in Hs by (by eapply lookup_lt_Some).
    injection Hs as <-. by exists sq.
  - rewrite list_lookup_insert_ne in Hs by done. by exists s.
Qed.

Lemma mapConsistent_modify (w w' : World) (q : addr) (f : schedule → schedule) :
  (∀ s, when (f s) = when s ∧ fnode (timer (f s)) = fnode (timer s)
        ∧ fwhen (timer (f s)) = fwhen (timer s)) →
  mapConsistent w →
  modify q f w = Some (tt, w') →
  mapConsistent w'.
Proof.
  intros Hf HI (sq & Hq & ->)%modify_Some.
  destruct (Hf sq) as (Hw & Hn & Hfw). by apply (mapConsistent_insert w _ q sq).
Qed.

Lemma mapConsistent_scheduled (w : World) (node : string) (now : time.Time) :
  schedules (eng w) !! node = None →
  mapConsistent w →
  mapConsistent (scheduled node now w).
Proof.
  intros Hm (Hwf & Hinj & Hname & Hwhen).
  assert (Hfresh : ∀ name, schedules (eng w) !! name ≠ Some (length (store w))).
  { intros name Hn. specialize (Hwf name _ Hn). cbn in Hwf. lia. }
  split; [by apply wf_scheduled|]. split; [|split]; cbn -[WhenNextSchedule].
  - intros n1 n2 p [[-> <-]|[Hne1 H1]]%lookup_insert_Some
                   [[-> Hp]|[Hne2 H2]]%lookup_insert_Some; try done.
    + by destruct (Hfresh n2).
    + subst p. by destruct (Hfresh n1).
    + by apply (Hinj n1 n2 p).
  - intros name p s [[-> <-]|[Hne Hn]]%lookup_insert_Some Hs.
    + rewrite store_snoc_lookup in Hs. by injection Hs as <-.
    + assert (Hp : (p < length (store w))%nat) by apply (Hwf name p Hn).
      rewrite lookup_app_l in Hs by done. by apply (Hname name p s).
  - intros p s Hs. destruct (decide (p < length (store w))%nat) as [Hp|Hp].
    + rewrite lookup_app_l in Hs by done. by apply (Hwhen p s).
    + rewrite lookup_app_r in Hs by lia.
      destruct (p - length (store w))%nat; [|by destruct n].
      by injection Hs as <-.
Qed.

Lemma step_mapConsistent (σ σ' : System) (a : action) :
  mapConsistent (world σ) → step σ a σ' → mapConsistent (world σ').
Proof.
  intros HI.
  destruct 1 as [node now r w w' cb H|name w w' cb H|name r w w' cb H|name t r w w' cb H
                |e w w' cb H|q sq w w' cb Hq Harmed H|q now w w' cb Hcb H
                |q now w w' cb Hcb H|q w w' cb Hcb H]; cbn in *.
  - apply ScheduleLocked_Some in H as [(p & s & _ & _ & _ & ->)|(Hm & _ & ->)];
      [done|by apply mapConsistent_scheduled].
  - apply DeleteSchedule_Some in H as [(p & s & _ & Hs & ->)|(_ & ->)].
    + apply (mapConsistent_insert w _ p s); [done|apply delete_subseteq|done|done| |].
      all: unfold Stop; by destruct (tstate (timer s)).
    + apply (mapConsistent_mono w); [done|done|done|]. intros p s Hs. by exists s.
  - apply HasSchedule_Some in H. injection H as He Hst. destruct w'. cbn in *. subst.
    apply (mapConsistent_mono w); [done|done|done|]. intros p s Hs. by exists s.
  - by apply IsScheduledByOldEvent_Some in H as ->.
  - rewrite emit_run in H. injection H as <-.
    apply (mapConsistent_mono w); [done|done|done|]. intros p s Hs. by exists s.
  - apply modify_Some in H as (sq' & Hq' & ->). assert (sq' = sq) as -> by congruence.
    by apply (mapConsistent_insert w _ q sq).
  - by eapply (mapConsistent_modify w w' q); [|done|done].
  - by eapply (mapConsistent_modify w w' q); [|done|done].
  - by eapply (mapConsistent_modify w w' q); [|done|done].
Qed.

Lemma mapConsistent_initial (period : time.Duration) :
  mapConsistent (NewDrainSchedules period).
Proof.
  split; [apply wf_new|]. split; [|split]; cbn.
  - intros n1 n2 p H. by rewrite lookup_empty in H.
  - intros name p s H. by rewrite lookup_empty in H.
  - intros p s H. by rewrite lookup_nil in H.
Qed.

Lemma steps_invariant (I : System → Prop) :
  (∀ σ σ' a, I σ → step σ a σ' → I σ') →
  ∀ σ l σ', steps σ l σ' → I σ → I σ'.
Proof.
  intros Hstep σ l σ' Hsteps. induction Hsteps as [σ|σ a σ1 l σ2 Hs Hsteps IH]; [done|].
  intros HI. apply IH. by eapply Hstep.
Qed.

Lemma reachable_mapConsistent (σ : System) : reachable σ → mapConsistent (world σ).
Proof.
  intros (period & l & Hsteps).
  apply (steps_invariant (λ σ, mapConsistent (world σ)) step_mapConsistent _ _ _ Hsteps).
  apply mapConsistent_initial.
Qed.

Ltac reach_worldTwo :=
  exists (5 * minute),
    [ActScheduleLocked "nodeA" t0;
     ActEffect (CallMarkDrain "nodeA" (t0 + 11 * time.Second) time.zero false);
     ActScheduleLocked "nodeB" t0;
     ActEffect (CallMarkDrain "nodeB" (t0 + 11 * time.Second + 5 * minute) time.zero false)];
  eapply steps_cons;
    [eapply step_schedule; apply ScheduleLocked_absent; vm_compute; reflexivity|];
  eapply steps_cons; [apply step_effect, emit_run|];
  eapply steps_cons;
    [eapply step_schedule; apply ScheduleLocked_absent; vm_compute; reflexivity|];
  eapply steps_cons; [apply step_effect, emit_run|];
  eapply steps_to; [apply steps_nil|]; vm_compute; reflexivity.

(** X13: in every state the engine can reach, by any interleaving, the map
    and the objects agree: every pointer of the map refers to an object (no
    method can hit a nil pointer), two names never share an object, and the
    timer of the object of a name was made for that name and for the [when]
    of that object. *)
Theorem reachable_map_consistent (σ : System) :
  reachable σ →
  wf (world σ)
  ∧ (∀ n1 n2 p, schedules (eng (world σ)) !! n1 = Some p →
                schedules (eng (world σ)) !! n2 = Some p → n1 = n2)
  ∧ (∀ name p, schedules (eng (world σ)) !! name = Some p →
       ∃ s, store (world σ) !! p = Some s
            ∧ fnode (timer s) = name ∧ fwhen (timer s) = when s).
Proof.
  intros (Hwf & Hinj & Hname & Hwhen)%reachable_mapConsistent.
  split; [done|]. split; [done|].
  intros name p Hm. destruct (wf_lookup _ _ _ Hwf Hm) as [s Hs].
  exists s. split; [done|]. split; [by apply (Hname name p)|by apply (Hwhen p)].
Qed.

Lemma reachable_map_consistent_witness :
  reachable (mkSystem worldTwo ∅)
  ∧ wf (world (mkSystem worldTwo ∅))
  ∧ (∀ n1 n2 p, schedules (eng (world (mkSystem worldTwo ∅))) !! n1 = Some p →
                schedules (eng (world (mkSystem worldTwo ∅))) !! n2 = Some p → n1 = n2)
  ∧ (∀ name p, schedules (eng (world (mkSystem worldTwo ∅))) !! name = Some p →
       ∃ s, store (world (mkSystem worldTwo ∅)) !! p = Some s
            ∧ fnode (timer s) = name ∧ fwhen (timer s) = when s).
Proof.
  assert (H : reachable (mkSystem worldTwo ∅)) by reach_worldTwo.
  split; [exact H|]. exact (reachable_map_consistent (mkSystem worldTwo ∅) H).
Defined.

Lemma whens_insert (st : list schedule) (q : addr) (sq s' : schedule) :
  st !! q = Some sq → when s' = when sq → when <$> <[q := s']> st = when <$> st.
Proof.
  intros Hq Hw. rewrite list_fmap_insert, Hw. apply list_insert_id.
  by rewrite list_lookup_fmap, Hq.
Qed.

Lemma whens_modify (w w' : World) (q : addr) (f : schedule → schedule) :
  (∀ s, when (f s) = when s) →
  modify q f w = Some (tt, w') →
  eng w' = eng w ∧ whens w' = whens w.
Proof.
  intros Hf (sq & Hq & ->)%modify_Some. split; [done|].
  unfold whens. cbn. by apply (whens_insert _ _ sq).
Qed.

(** A step keeps the scheduled times, the period and
    [lastDrainScheduledFor], unless it is the locked section of [Schedule]
    for a node without entry. *)
Lemma step_whens (σ σ' : System) (a : action) :
  step σ a σ' →
  (period (eng (world σ')) = period (eng (world σ))
   ∧ lastDrainScheduledFor (eng (world σ')) = lastDrainScheduledFor (eng (world σ))
   ∧ whens (world σ') = whens (world σ))
  ∨ ∃ node now, world σ' = scheduled node now (world σ).
Proof.
  destruct 1 as [node now r w w' cb H|name w w' cb H|name r w w' cb H|name t r w w' cb H
                |e w w' cb H|q sq w w' cb Hq Harmed H|q now w w' cb Hcb H
                |q now w w' cb Hcb H|q w w' cb Hcb H]; cbn.
  - apply ScheduleLocked_Some in H as [(p & s & _ & _ & _ & ->)|(Hm & _ & ->)];
      [by left|right; by exists node, now].
  - left. apply DeleteSchedule_Some in H as [(p & s & _ & Hs & ->)|(_ & ->)]; [|done].
    split; [done|]. split; [done|]. unfold whens. cbn. by apply (whens_insert _ _ s).
  - left. apply HasSchedule_Some in H. injection H as -> Hst. unfold whens. by rewrite Hst.
  - left. by apply IsScheduledByOldEvent_Some in H as ->.
  - left. rewrite emit_run in H. by injection H as <-.
  - left. apply whens_modify in H as [-> ->]; done.
  - left. apply whens_modify in H as [-> ->]; done.
  - left. apply whens_modify in H as [-> ->]; done.
  - left. apply whens_modify in H as [-> ->]; done.
Qed.

Lemma staggered_scheduled (w : World) (node : string) (now : time.Time) :
  0 ≤ period (eng w) → staggered w → staggered (scheduled node now w).
Proof.
  intros Hp [Hlast Hgap].
  pose proof (WhenNextSchedule_max (eng w) now) as HW.
  assert (Hlen : length (whens w) = length (store w)) by apply length_fmap.
  unfold staggered, whens in *. cbn -[WhenNextSchedule].
  rewrite fmap_app. cbn -[WhenNextSchedule].
  set (W := WhenNextSchedule (eng w) now) in *.
  assert (Hnew : ∀ p t, ((when <$> store w) ++ [W]) !! p = Some t →
                        ((p < length (store w))%nat ∧ (when <$> store w) !! p = Some t)
                        ∨ (p = length (store w) ∧ t = W)).
  { intros p t Ht. destruct (decide (p < length (store w))%nat) as [Hlt|Hge].
    - left. split; [done|]. by rewrite lookup_app_l in Ht by lia.
    - right. rewrite lookup_app_r in Ht by lia. rewrite Hlen in Ht.
      destruct (p - length (store w))%nat as [|n] eqn:Hn; [|by destruct n].
      injection Ht as <-. split; [lia|done]. }
  split.
  - intros p t [[_ Ht]|[_ ->]]%Hnew; [|lia].
    specialize (Hlast p t Ht). lia.
  - intros p q tp tq Hpq [[Hp' Htp]|[-> ->]]%Hnew [[Hq' Htq]|[-> ->]]%Hnew; try lia.
    + by apply (Hgap p q).
    + specialize (Hlast p tp Htp). lia.
Qed.

Lemma step_staggered (σ σ' : System) (a : action) :
  (0 ≤ period (eng (world σ)) → staggered (world σ)) →
  step σ a σ' →
  0 ≤ period (eng (world σ')) → staggered (world σ').
Proof.
  intros HI Hstep Hp'.
  destruct (step_whens _ _ _ Hstep) as [(Hper & Hlast & Hwh)|(node & now & Heq)].
  - rewrite Hper in Hp'. destruct (HI Hp') as [H1 H2].
    unfold staggered. rewrite Hper, Hlast, Hwh. by split.
  - rewrite Heq in *. cbn in Hp'. by apply staggered_scheduled; [|apply HI].
Qed.

Lemma reachable_staggered (σ : System) :
  reachable σ → 0 ≤ period (eng (world σ)) → staggered (world σ).
Proof.
  intros (period & l & Hsteps).
  apply (steps_invariant (λ σ, 0 ≤ _ → staggered (world σ)) step_staggered _ _ _ Hsteps).
  intros _. split.
  - intros p t H. unfold whens in H. cbn in H. by rewrite lookup_nil in H.
  - intros p q tp tq _ H. unfold whens in H. cbn in H. by rewrite lookup_nil in H.
Qed.

(** X14: with a period that is not negative, in every state the engine can
    reach no scheduled time is after [lastDrainScheduledFor], every object
    has a time at least one period after the times of the objects made
    before it, and so the times of the schedules of two different nodes are
    at least one period apart. *)
Theorem reachable_times_staggered (σ : System) :
  reachable σ →
  0 ≤ period (eng (world σ)) →
  (∀ p s, store (world σ) !! p = Some s →
          when s ≤ lastDrainScheduledFor (eng (world σ)))
  ∧ (∀ p q sp sq, (p < q)%nat →
       store (world σ) !! p = Some sp → store (world σ) !! q = Some sq →
       when sp + period (eng (world σ)) ≤ when sq)
  ∧ (∀ n1 n2 p1 p2 s1 s2, n1 ≠ n2 →
       schedules (eng (world σ)) !! n1 = Some p1 →
       schedules (eng (world σ)) !! n2 = Some p2 →
       store (world σ) !! p1 = Some s1 → store (world σ) !! p2 = Some s2 →
       period (eng (world σ)) ≤ Z.abs (when s1 - when s2)).
Proof.
  intros Hreach Hp.
  destruct (reachable_staggered _ Hreach Hp) as [Hlast Hgap].
  destruct (reachable_mapConsistent _ Hreach) as (_ & Hinj & _).
  assert (Hwh : ∀ p s, store (world σ) !! p = Some s → whens (world σ) !! p = Some (when s)).
  { intros p s Hs. unfold whens. by rewrite list_lookup_fmap, Hs. }
  assert (Hgap' : ∀ p q sp sq, (p < q)%nat →
            store (world σ) !! p = Some sp → store (world σ) !! q = Some sq →
            when sp + period (eng (world σ)) ≤ when sq).
  { intros p q sp sq Hpq Hsp Hsq. apply (Hgap p q); [done|by apply Hwh|by apply Hwh]. }
  split; [intros p s Hs; by apply (Hlast p), Hwh|]. split; [done|].
  intros n1 n2 p1 p2 s1 s2 Hne H1 H2 Hs1 Hs2.
  destruct (Nat.lt_total p1 p2) as [Hlt|[->|Hgt]].
  - specialize (Hgap' p1 p2 s1 s2 Hlt Hs1 Hs2). lia.
  - by destruct Hne; apply (Hinj n1 n2 p2).
  - specialize (Hgap' p2 p1 s2 s1 Hgt Hs2 Hs1). lia.
Qed.

Lemma reachable_times_staggered_witness :
  (reachable (mkSystem worldTwo ∅) ∧ 0 ≤ period (eng (world (mkSystem worldTwo ∅))))
  ∧ (∀ p s, store (world (mkSystem worldTwo ∅)) !! p = Some s →
          when s ≤ lastDrainScheduledFor (eng (world (mkSystem worldTwo ∅))))
  ∧ (∀ p q sp sq, (p < q)%nat →
       store (world (mkSystem worldTwo ∅)) !! p = Some sp →
       store (world (mkSystem worldTwo ∅)) !! q = Some sq →
       when sp + period (eng (world (mkSystem worldTwo ∅))) ≤ when sq)
  ∧ (∀ n1 n2 p1 p2 s1 s2, n1 ≠ n2 →
       schedules (eng (world (mkSystem worldTwo ∅))) !! n1 = Some p1 →
       schedules (eng (world (mkSystem worldTwo ∅))) !! n2 = Some p2 →
       store (world (mkSystem worldTwo ∅)) !! p1 = Some s1 →
       store (world (mkSystem worldTwo ∅)) !! p2 = Some s2 →
       period (eng (world (mkSystem worldTwo ∅))) ≤ Z.abs (when s1 - when s2)).
Proof.
  assert (H : reachable (mkSystem worldTwo ∅)) by reach_worldTwo.
  assert (Hp : 0 ≤ period (eng (world (mkSystem worldTwo ∅))))
    by (vm_compute; discriminate).
  split; [done|]. exact (reachable_times_staggered (mkSystem worldTwo ∅) H Hp).
Defined.

Lemma lifecycle_fired (σ : System) (p : addr) (s : schedule) :
  lifecycle σ →
  store (world σ) !! p = Some s →
  is_Some (callbacks σ !! p) →
  tstate (timer s) = TimerFired.
Proof.
  intros [_ HI] Hs Hcb. destruct (HI p s Hs) as (_ & HB & _).
  destruct (decide (tstate (timer s) = TimerFired)) as [|Hne]; [done|].
  destruct (HB Hne) as (_ & _ & Hnone). rewrite Hnone in Hcb. by destruct Hcb.
Qed.

(** The life of the objects after one object [q] was replaced by [s'] and
    the callbacks became [cb']. *)
Lemma lifecycle_update (w : World) (cb cb' : gmap addr stage) (d' : DrainSchedules)
    (q : addr) (sq s' : schedule) (tr : list effect) :
  lifecycle (mkSystem w cb) →
  store w !! q = Some sq →
  (∀ p, p ≠ q → cb' !! p = cb !! p) →
  (failed s' = 0 ∨ failed s' = 1) →
  (tstate (timer s') ≠ TimerFired →
   finish s' = time.zero ∧ failed s' = 0 ∧ cb' !! q = None) →
  (is_Some (cb' !! q) → failed s' = 0) →
  (cb' !! q = Some Draining → finish s' = time.zero) →
  lifecycle (mkSystem (mkWorld d' (<[q := s']> (store w)) tr) cb').
Proof.
  intros [HR HI] Hq Hcb HA HB HC HD.
  assert (Hlt : (q < length (store w))%nat) by (by eapply lookup_lt_Some).
  split; cbn.
  - intros p Hp. rewrite length_insert. destruct (decide (p = q)) as [->|Hne]; [done|].
    apply HR. cbn. by rewrite <- Hcb.
  - intros p s Hs. destruct (decide (p = q)) as [->|Hne].
    + rewrite list_lookup_insert_eq in Hs by done. by injection Hs as <-.
    + rewrite list_lookup_insert_ne in Hs by done. rewrite (Hcb p Hne).
      apply (HI p s Hs).
Qed.

Lemma lifecycle_same (w : World) (cb : gmap addr stage) (d' : DrainSchedules)
    (tr : list effect) :
  lifecycle (mkSystem w cb) → lifecycle (mkSystem (mkWorld d' (store w) tr) cb).
Proof. intros [HR HI]. by split. Qed.

Lemma step_lifecycle (σ σ' : System) (a : action) :
  lifecycle σ → step σ a σ' → lifecycle σ'.
Proof.
  intros HL Hstep.
  destruct Hstep as [node now r w w' cb H|name w w' cb H|name r w w' cb H|name t r w w' cb H
                |e w w' cb H|q sq w w' cb Hq Harmed H|q now w w' cb Hcb H
                |q now w w' cb Hcb H|q w w' cb Hcb H].
  - apply ScheduleLocked_Some in H as [(p & s & _ & _ & _ & ->)|(Hm & _ & ->)]; [done|].
    destruct HL as [HR HI]. cbn in HR, HI.
    assert (Hfresh : cb !! length (store w) = None).
    { destruct (cb !! length (store w)) eqn:Hc; [|done].
      assert (length (store w) < length (store w))%nat by (apply HR; by rewrite Hc). lia. }
    split; cbn -[WhenNextSchedule].
    + intros p Hp. rewrite length_app. specialize (HR p Hp). lia.
    + intros p s Hs. destruct (decide (p < length (store w))%nat) as [Hlt|Hge].
      * rewrite lookup_app_l in Hs by done. by apply HI.
      * rewrite lookup_app_r in Hs by lia.
        destruct (p - length (store w))%nat as [|n] eqn:Hn; [|by destruct n].
        injection Hs as <-. assert (p = length (store w)) as -> by lia.
        cbn. rewrite Hfresh. split; [by left|]. split; [done|].
        split; [done|done].
  - apply DeleteSchedule_Some in H as [(p & s & _ & Hs & ->)|(_ & ->)];
      [|by apply lifecycle_same].
    destruct HL as [HR HI]. destruct (HI p s Hs) as (HA & HB & HC & HD).
    apply (lifecycle_update w cb cb _ p s); try done.
    intros Hne. apply HB. intros Hf. apply Hne. cbn. unfold Stop. by rewrite Hf.
  - apply HasSchedule_Some in H. injection H as He Hst. destruct w'. cbn in *. subst.
    by apply lifecycle_same.
  - by apply IsScheduledByOldEvent_Some in H as ->.
  - rewrite emit_run in H. injection H as <-. by apply lifecycle_same.
  - apply modify_Some in H as (sq' & Hq' & ->). assert (sq' = sq) as -> by congruence.
    destruct HL as [HR HI]. destruct (HI q sq Hq) as (HA & HB & HC & HD).
    destruct HB as (Hfin & Hfl & Hnone); [by rewrite Harmed|].
    apply (lifecycle_update w cb _ _ q sq); try done; cbn.
    intros p Hne. by rewrite lookup_insert_ne.
  - apply modify_Some in H as (sq & Hq & ->).
    assert (Hfired : tstate (timer sq) = TimerFired)
      by (apply (lifecycle_fired (mkSystem w cb) q sq HL Hq); cbn; by rewrite Hcb).
    destruct HL as [HR HI]. destruct (HI q sq Hq) as (HA & HB & HC & HD).
    apply (lifecycle_update w cb _ _ q sq); try done; cbn;
      rewrite ?lookup_delete_eq, ?lookup_insert_eq;
      try (by intros [? ?]); try done; try (by right);
      try (by rewrite Hfired);
      try (intros _; apply HC; cbn; by rewrite Hcb);
      intros p Hne; by rewrite ?lookup_delete_ne, ?lookup_insert_ne by done.
  - apply modify_Some in H as (sq & Hq & ->).
    assert (Hfired : tstate (timer sq) = TimerFired)
      by (apply (lifecycle_fired (mkSystem w cb) q sq HL Hq); cbn; by rewrite Hcb).
    destruct HL as [HR HI]. destruct (HI q sq Hq) as (HA & HB & HC & HD).
    apply (lifecycle_update w cb _ _ q sq); try done; cbn;
      rewrite ?lookup_delete_eq, ?lookup_insert_eq;
      try (by intros [? ?]); try done; try (by right);
      try (by rewrite Hfired);
      try (intros _; apply HC; cbn; by rewrite Hcb);
      intros p Hne; by rewrite ?lookup_delete_ne, ?lookup_insert_ne by done.
  - apply modify_Some in H as (sq & Hq & ->).
    assert (Hfired : tstate (timer sq) = TimerFired)
      by (apply (lifecycle_fired (mkSystem w cb) q sq HL Hq); cbn; by rewrite Hcb).
    destruct HL as [HR HI]. destruct (HI q sq Hq) as (HA & HB & HC & HD).
    apply (lifecycle_update w cb _ _ q sq); try done; cbn;
      rewrite ?lookup_delete_eq, ?lookup_insert_eq;
      try (by intros [? ?]); try done; try (by right);
      try (by rewrite Hfired);
      try (intros _; apply HC; cbn; by rewrite Hcb);
      intros p Hne; by rewrite ?lookup_delete_ne, ?lookup_insert_ne by done.
Qed.

Lemma reachable_lifecycle (σ : System) : reachable σ → lifecycle σ.
Proof.
  intros (period & l & Hsteps).
  apply (steps_invariant lifecycle step_lifecycle _ _ _ Hsteps).
  split; cbn.
  - intros p [? H]. by rewrite lookup_empty in H.
  - intros p s H. by rewrite lookup_nil in H.
Qed.

(** X15: in every state the engine can reach, the failed flag of an object
    is 0 or 1; an object whose timer has not fired (it is armed, or was
    stopped first) has the zero [finish] and no failure; while the callback
    waits for [Drain] nothing is written yet; and the failed flag is set only
    on an object whose timer has fired and whose callback has returned from
    [Drain] and made its writes. *)
Theorem reachable_object_lifecycle (σ : System) (p : addr) (s : schedule) :
  reachable σ →
  store (world σ) !! p = Some s →
  (failed s = 0 ∨ failed s = 1)
  ∧ (tstate (timer s) ≠ TimerFired → finish s = time.zero ∧ failed s = 0)
  ∧ (callbacks σ !! p = Some Draining → finish s = time.zero ∧ failed s = 0)
  ∧ (failed s = 1 → tstate (timer s) = TimerFired ∧ callbacks σ !! p = None).
Proof.
  intros HL%reachable_lifecycle Hs.
  pose proof (lifecycle_fired σ p s HL Hs) as Hfired.
  destruct HL as [HR HI]. destruct (HI p s Hs) as (HA & HB & HC & HD).
  split; [done|]. split; [intros Hne; by destruct (HB Hne) as (? & ? & _)|].
  split.
  - intros Hcb. split; [by apply HD|]. apply HC. by rewrite Hcb.
  - intros Hf. split.
    + destruct (decide (tstate (timer s) = TimerFired)) as [|Hne]; [done|].
      destruct (HB Hne) as (_ & H0 & _). lia.
    + destruct (callbacks σ !! p) as [st|] eqn:Hcb; [|done].
      assert (failed s = 0) by (by apply HC). lia.
Qed.

Lemma reachable_object_lifecycle_witness :
  (reachable (mkSystem worldTwo ∅)
   ∧ store (world (mkSystem worldTwo ∅)) !! 0%nat = Some schedulePending)
  ∧ (failed schedulePending = 0 ∨ failed schedulePending = 1)
  ∧ (tstate (timer schedulePending) ≠ TimerFired →
     finish schedulePending = time.zero ∧ failed schedulePending = 0)
  ∧ (callbacks (mkSystem worldTwo ∅) !! 0%nat = Some Draining →
     finish schedulePending = time.zero ∧ failed schedulePending = 0)
  ∧ (failed schedulePending = 1 →
     tstate (timer schedulePending) = TimerFired
     ∧ callbacks (mkSystem worldTwo ∅) !! 0%nat = None).
Proof.
  assert (H : reachable (mkSystem worldTwo ∅)) by reach_worldTwo.
  assert (Hs : store (world (mkSystem worldTwo ∅)) !! 0%nat = Some schedulePending)
    by (vm_compute; reflexivity).
  split; [done|].
  exact (reachable_object_lifecycle (mkSystem worldTwo ∅) 0%nat schedulePending H Hs).
Defined.

(** ** The queries together *)

(** X16: a schedule that [IsScheduledByOldEvent] reports for some time is
    one that [HasSchedule] reports as present and not failed, and it is
    reported for every later time as well. *)
Theorem old_event_implies_schedule (w : World) (name : string) (t t' : time.Time) :
  wf w →
  IsScheduledByOldEvent name t w = Some (true, w) →
  t ≤ t' →
  fst <$> HasSchedule name w = Some (true, false)
  ∧ IsScheduledByOldEvent name t' w = Some (true, w).
Proof.
  intros Hwf Hold Htt. destruct (schedules (eng w) !! name) as [p|] eqn:Hm.
  - destruct (wf_lookup _ _ _ Hwf Hm) as [s Hs].
    rewrite (IsScheduledByOldEvent_present _ _ _ _ _ Hm Hs) in Hold.
    injection Hold as Hold.
    apply andb_true_iff in Hold as [[Hb Hf]%andb_true_iff Hz].
    rewrite (HasSchedule_present _ _ _ _ Hm Hs),
      (IsScheduledByOldEvent_present _ _ _ _ _ Hm Hs), Hf, Hz.
    apply negb_true_iff in Hf as ->. split; [done|].
    unfold time.Before in *. apply Z.ltb_lt in Hb.
    assert ((when s <? t') = true) as -> by (apply Z.ltb_lt; lia). done.
  - by rewrite (IsScheduledByOldEvent_absent _ _ _ Hm) in Hold.
Qed.

Lemma old_event_implies_schedule_witness :
  (wf worldDrained
   ∧ IsScheduledByOldEvent "nodeA" (t0 + minute) worldDrained = Some (true, worldDrained)
   ∧ t0 + minute ≤ t0 + 5 * minute)
  ∧ fst <$> HasSchedule "nodeA" worldDrained = Some (true, false)
  ∧ IsScheduledByOldEvent "nodeA" (t0 + 5 * minute) worldDrained
    = Some (true, worldDrained).
Proof.
  assert (Hwf : wf worldDrained) by by_computation.
  assert (H1 : IsScheduledByOldEvent "nodeA" (t0 + minute) worldDrained
               = Some (true, worldDrained)) by (vm_compute; reflexivity).
  assert (H2 : t0 + minute ≤ t0 + 5 * minute) by (vm_compute; discriminate).
  split; [done|].
  exact (old_event_implies_schedule worldDrained "nodeA" (t0 + minute) (t0 + 5 * minute)
           Hwf H1 H2).
Defined.

(** ** The scheduling time, again *)

(** X17: the next scheduling time is at least [SetConditionTimeout] plus one
    second after the reading of the clock, hence strictly in the future, and
    it does not move back when the clock or [lastDrainScheduledFor] move
    forward. *)
Theorem WhenNextSchedule_monotone (d d' : DrainSchedules) (now now' : time.Time) :
  period d' = period d →
  lastDrainScheduledFor d ≤ lastDrainScheduledFor d' →
  now ≤ now' →
  now < WhenNextSchedule d now
  ∧ now + SetConditionTimeout + time.Second ≤ WhenNextSchedule d now
  ∧ WhenNextSchedule d now ≤ WhenNextSchedule d' now'.
Proof.
  intros Hp Hl Hn. rewrite !WhenNextSchedule_max, Hp.
  assert (0 < SetConditionTimeout + time.Second) by done. lia.
Qed.

Lemma WhenNextSchedule_monotone_witness :
  (period (eng worldTwo) = period (eng worldPending)
   ∧ lastDrainScheduledFor (eng worldPending) ≤ lastDrainScheduledFor (eng worldTwo)
   ∧ t0 ≤ t0 + minute)
  ∧ t0 < WhenNextSchedule (eng worldPending) t0
  ∧ t0 + SetConditionTimeout + time.Second ≤ WhenNextSchedule (eng worldPending) t0
  ∧ WhenNextSchedule (eng worldPending) t0 ≤ WhenNextSchedule (eng worldTwo) (t0 + minute).
Proof.
  assert (H1 : period (eng worldTwo) = period (eng worldPending))
    by (vm_compute; reflexivity).
  assert (H2 : lastDrainScheduledFor (eng worldPending)
               ≤ lastDrainScheduledFor (eng worldTwo)) by (vm_compute; discriminate).
  assert (H3 : t0 ≤ t0 + minute) by (vm_compute; discriminate).
  split; [done|].
  exact (WhenNextSchedule_monotone (eng worldPending) (eng worldTwo) t0 (t0 + minute)
           H1 H2 H3).
Defined.

(** ** Callbacks and queries at the same time *)

Lemma queries_of_entry (w : World) (node : string) (p : addr) (s : schedule) :
  schedules (eng w) !! node = Some p →
  store w !! p = Some s →
  fst <$> HasSchedule node w = Some (true, isFailed s)
  ∧ ∀ t, IsScheduledByOldEvent node t w
         = Some (time.Before (when s) t && negb (isFailed s)
                 && negb (time.IsZero (finish s)), w).
Proof.
  intros Hm Hs. split.
  - by rewrite (HasSchedule_present _ _ _ _ Hm Hs).
  - intros t. apply (IsScheduledByOldEvent_present _ _ _ _ _ Hm Hs).
Qed.

(** X19: the callback of a failed drain writes [finish] before it sets the
    failed flag, and does so without the mutex.  A query that runs between
    the two writes sees a schedule that is finished and not failed:
    [HasSchedule] answers [(true, false)] and [IsScheduledByOldEvent] answers
    [true] for every time after [when].  Only after [setFailed] do the
    queries answer [(true, true)] and [false]. *)
Theorem failed_drain_window (w : World) (cb : gmap addr stage) (node : string)
    (p : addr) (s : schedule) (now : time.Time) :
  schedules (eng w) !! node = Some p →
  store w !! p = Some s →
  tstate (timer s) = TimerArmed →
  failed s ≠ 1 →
  now ≠ time.zero →
  ∃ σ1 σ2,
    steps (mkSystem w cb) [ActFire p; ActDrainFailed p now] σ1
    ∧ fst <$> HasSchedule node (world σ1) = Some (true, false)
    ∧ (∀ t, IsScheduledByOldEvent node t (world σ1)
            = Some (bool_decide (when s < t), world σ1))
    ∧ step σ1 (ActSetFailed p) σ2
    ∧ fst <$> HasSchedule node (world σ2) = Some (true, true)
    ∧ (∀ t, IsScheduledByOldEvent node t (world σ2) = Some (false, world σ2)).
Proof.
  intros Hm Hs Harmed Hf Hnow.
  assert (Hp : (p < length (store w))%nat) by (by eapply lookup_lt_Some).
  set (tm := mkTimer TimerFired (fnode (timer s)) (fwhen (timer s))).
  set (s0 := mkSchedule (when s) (failed s) (finish s) tm).
  set (s1 := mkSchedule (when s) (failed s) now tm).
  set (s2 := mkSchedule (when s) 1 now tm).
  set (w0 := mkWorld (eng w) (<[p := s0]> (store w)) (trace w)).
  set (w1 := mkWorld (eng w) (<[p := s1]> (store w)) (trace w)).
  set (w2 := mkWorld (eng w) (<[p := s2]> (store w)) (trace w)).
  assert (H0 : setTimer p tm w = Some (tt, w0))
    by (unfold setTimer; by rewrite (modify_run p _ w s Hs)).
  assert (H1 : setFinish p now w0 = Some (tt, w1)).
  { unfold setFinish. rewrite (modify_run p _ w0 s0) by (by apply list_lookup_insert_eq).
    unfold w1, w0. cbn. by rewrite list_insert_insert_eq. }
  assert (H2 : setFailed p w1 = Some (tt, w2)).
  { unfold setFailed. rewrite (modify_run p _ w1 s1) by (by apply list_lookup_insert_eq).
    unfold w2, w1. cbn. by rewrite list_insert_insert_eq. }
  assert (Hs1 : store w1 !! p = Some s1) by (by apply list_lookup_insert_eq).
  assert (Hs2 : store w2 !! p = Some s2) by (by apply list_lookup_insert_eq).
  destruct (queries_of_entry w1 node p s1 Hm Hs1) as [Hh1 Ho1].
  destruct (queries_of_entry w2 node p s2 Hm Hs2) as [Hh2 Ho2].
  assert (Hnf : isFailed s1 = false) by (by apply Z.eqb_neq).
  exists (mkSystem w1 (<[p := MarkingFailed]> (<[p := Draining]> cb))),
    (mkSystem w2 (delete p (<[p := MarkingFailed]> (<[p := Draining]> cb)))).
  split; [|split; [|split; [|split; [|split]]]].
  - eapply steps_cons; [by eapply step_fire|].
    eapply steps_cons; [|apply steps_nil].
    apply step_drain_failed; [apply lookup_insert_eq|done].
  - cbn. by rewrite Hh1, Hnf.
  - intros t. cbn. rewrite Ho1, Hnf. cbn. unfold time.Before, time.IsZero.
    assert ((now =? 0) = false) as -> by (by apply Z.eqb_neq).
    rewrite !andb_true_r. do 2 f_equal.
    destruct (Z.ltb_spec (when s) t); [by rewrite bool_decide_eq_true_2|
                                       rewrite bool_decide_eq_false_2; [done|lia]].
  - apply step_set_failed; [apply lookup_insert_eq|done].
  - cbn. by rewrite Hh2.
  - intros t. cbn. rewrite Ho2. cbn. by rewrite andb_false_r.
Qed.

Lemma failed_drain_window_witness :
  (schedules (eng worldPending) !! "nodeA" = Some 0%nat
   ∧ store worldPending !! 0%nat = Some schedulePending
   ∧ tstate (timer schedulePending) = TimerArmed
   ∧ failed schedulePending ≠ 1
   ∧ t0 + 12 * time.Second ≠ time.zero)
  ∧ ∃ σ1 σ2,
    steps (mkSystem worldPending ∅) [ActFire 0; ActDrainFailed 0 (t0 + 12 * time.Second)] σ1
    ∧ fst <$> HasSchedule "nodeA" (world σ1) = Some (true, false)
    ∧ (∀ t, IsScheduledByOldEvent "nodeA" t (world σ1)
            = Some (bool_decide (when schedulePending < t), world σ1))
    ∧ step σ1 (ActSetFailed 0) σ2
    ∧ fst <$> HasSchedule "nodeA" (world σ2) = Some (true, true)
    ∧ (∀ t, IsScheduledByOldEvent "nodeA" t (world σ2) = Some (false, world σ2)).
Proof.
  assert (H1 : schedules (eng worldPending) !! "nodeA" = Some 0%nat)
    by (vm_compute; reflexivity).
  assert (H2 : store worldPending !! 0%nat = Some schedulePending)
    by (vm_compute; reflexivity).
  assert (H3 : tstate (timer schedulePending) = TimerArmed) by reflexivity.
  assert (H4 : failed schedulePending ≠ 1) by (vm_compute; discriminate).
  assert (H5 : t0 + 12 * time.Second ≠ time.zero) by (vm_compute; discriminate).
  split; [done|].
  exact (failed_drain_window worldPending ∅ "nodeA" 0%nat schedulePending
           (t0 + 12 * time.Second) H1 H2 H3 H4 H5).
Defined.

(** X20: [DeleteSchedule] does not interrupt a drain that has started.  When
    the entry of a node is deleted while the callback of its object waits for
    [Drain], and the node is scheduled anew, the callback still records its
    failure, but in its own object: the new schedule of the node is another
    object, and the queries about the node answer "scheduled, not failed,
    not an old event". *)
Theorem stale_callback_misses_new_schedule (w : World) (cb : gmap addr stage)
    (node : string) (p : addr) (s : schedule) (now now' : time.Time) :
  schedules (eng w) !! node = Some p →
  store w !! p = Some s →
  cb !! p = Some Draining →
  ∃ σ',
    steps (mkSystem w cb)
          [ActDeleteSchedule node; ActScheduleLocked node now;
           ActDrainFailed p now'; ActSetFailed p] σ'
    ∧ schedules (eng (world σ')) !! node = Some (length (store w))
    ∧ length (store w) ≠ p
    ∧ store (world σ') !! p = Some (mkSchedule (when s) 1 now' (Stop (timer s)))
    ∧ fst <$> HasSchedule node (world σ') = Some (true, false)
    ∧ (∀ t, IsScheduledByOldEvent node t (world σ') = Some (false, world σ')).
Proof.
  intros Hm Hs Hcb.
  assert (Hp : (p < length (store w))%nat) by (by eapply lookup_lt_Some).
  set (s1 := mkSchedule (when s) (failed s) (finish s) (Stop (timer s))).
  set (w1 := mkWorld (mkDrainSchedules (delete node (schedules (eng w)))
                        (lastDrainScheduledFor (eng w)) (period (eng w)))
                     (<[p := s1]> (store w)) (trace w)).
  assert (H1 : DeleteSchedule node w = Some (tt, w1))
    by apply (DeleteSchedule_present _ _ _ _ Hm Hs).
  assert (Hm1 : schedules (eng w1) !! node = None) by apply lookup_delete_eq.
  set (w2 := scheduled node now w1).
  assert (H2 : ScheduleLocked node now w1 = Some (inr (WhenNextSchedule (eng w1) now), w2))
    by (by apply ScheduleLocked_absent).
  assert (Hlen1 : length (store w1) = length (store w)) by apply length_insert.
  assert (Hs2 : store w2 !! p = Some s1).
  { unfold w2. cbn -[WhenNextSchedule]. rewrite lookup_app_l by (rewrite length_insert; lia).
    by apply list_lookup_insert_eq. }
  pose proof (modify_run p (λ s, mkSchedule (when s) (failed s) now' (timer s)) w2 s1 Hs2)
    as H3.
  set (w3 := mkWorld _ _ _) in H3.
  assert (Hs3 : store w3 !! p = Some (mkSchedule (when s) (failed s) now' (Stop (timer s)))).
  { unfold w3. cbn -[WhenNextSchedule]. apply list_lookup_insert_eq.
    by eapply lookup_lt_Some. }
  pose proof (modify_run p (λ s, mkSchedule (when s) 1 (finish s) (timer s)) w3 _ Hs3) as H4.
  set (w4 := mkWorld _ _ _) in H4.
  set (new := mkSchedule (WhenNextSchedule (eng w1) now) 0 time.zero
                (mkTimer TimerArmed node (WhenNextSchedule (eng w1) now))).
  assert (Hnew2 : store w2 !! length (store w) = Some new).
  { unfold w2. cbn -[WhenNextSchedule]. rewrite <- Hlen1. apply store_snoc_lookup. }
  assert (Hne : length (store w) ≠ p) by lia.
  assert (Hnew4 : store w4 !! length (store w) = Some new).
  { unfold w4, w3. cbn -[WhenNextSchedule]. by rewrite !list_lookup_insert_ne. }
  assert (Hm4 : schedules (eng w4) !! node = Some (length (store w))).
  { unfold w4, w3, w2. cbn -[WhenNextSchedule]. rewrite length_insert.
    apply lookup_insert_eq. }
  destruct (queries_of_entry w4 node _ new Hm4 Hnew4) as [Hh Ho].
  exists (mkSystem w4 (delete p (<[p := MarkingFailed]> cb))).
  split; [|split; [done|split; [done|split; [|split]]]].
  - eapply steps_cons; [by apply step_delete|].
    eapply steps_cons; [by eapply step_schedule|].
    eapply steps_cons; [by apply step_drain_failed|].
    eapply steps_cons; [|apply steps_nil].
    apply step_set_failed; [apply lookup_insert_eq|done].
  - unfold w4. cbn -[WhenNextSchedule]. apply list_lookup_insert_eq.
    rewrite length_insert. by eapply lookup_lt_Some.
  - done.
  - intros t. cbn -[WhenNextSchedule]. rewrite Ho. cbn. by rewrite andb_false_r.
Qed.

Lemma stale_callback_misses_new_schedule_witness :
  (schedules (eng worldDraining) !! "nodeA" = Some 0%nat
   ∧ store worldDraining !! 0%nat
     = Some (mkSchedule (t0 + 11 * time.Second) 0 time.zero
               (mkTimer TimerFired "nodeA" (t0 + 11 * time.Second)))
   ∧ ({[0%nat := Draining]} : gmap addr stage) !! 0%nat = Some Draining)
  ∧ ∃ σ',
    steps (mkSystem worldDraining {[0%nat := Draining]})
          [ActDeleteSchedule "nodeA"; ActScheduleLocked "nodeA" (t0 + minute);
           ActDrainFailed 0 (t0 + 2 * minute); ActSetFailed 0] σ'
    ∧ schedules (eng (world σ')) !! "nodeA" = Some (length (store worldDraining))
    ∧ length (store worldDraining) ≠ 0%nat
    ∧ store (world σ') !! 0%nat
      = Some (mkSchedule (t0 + 11 * time.Second) 1 (t0 + 2 * minute)
                (Stop (mkTimer TimerFired "nodeA" (t0 + 11 * time.Second))))
    ∧ fst <$> HasSchedule "nodeA" (world σ') = Some (true, false)
    ∧ (∀ t, IsScheduledByOldEvent "nodeA" t (world σ') = Some (false, world σ')).
Proof.
  assert (H1 : schedules (eng worldDraining) !! "nodeA" = Some 0%nat)
    by (vm_compute; reflexivity).
  assert (H2 : store worldDraining !! 0%nat
               = Some (mkSchedule (t0 + 11 * time.Second) 0 time.zero
                         (mkTimer TimerFired "nodeA" (t0 + 11 * time.Second))))
    by reflexivity.
  assert (H3 : ({[0%nat := Draining]} : gmap addr stage) !! 0%nat = Some Draining)
    by (vm_compute; reflexivity).
  split; [done|].
  exact (stale_callback_misses_new_schedule worldDraining {[0%nat := Draining]} "nodeA"
           0%nat _ (t0 + minute) (t0 + 2 * minute) H1 H2 H3).
Defined.

(** ** A burst of requests *)

Lemma WhenNextSchedule_next (d d' : DrainSchedules) (now : time.Time) :
  period d' = period d →
  lastDrainScheduledFor d' = WhenNextSchedule d now →
  0 ≤ period d →
  WhenNextSchedule d' now = WhenNextSchedule d now + period d.
Proof.
  intros Hper Hlast Hp. rewrite (WhenNextSchedule_max d'), Hper, Hlast.
  rewrite (WhenNextSchedule_max d). lia.
Qed.

(** X21: a burst of [Schedule] calls, at one reading of the clock, for
    different nodes none of which has an entry, the period not being negative
    and every announcement succeeding: the calls all succeed, the node at
    position [k] of the burst gets the time of the first plus [k] periods,
    and nothing else changes in the map or in the objects that existed. *)
Theorem burst_is_staggered (nodes : list string) (now : time.Time) (w : World) :
  NoDup nodes →
  (∀ n, n ∈ nodes → schedules (eng w) !! n = None) →
  0 ≤ period (eng w) →
  ∃ w', runAll ((λ n, OpSchedule n now None) <$> nodes) w = Some (tt, w')
    ∧ length (store w') = (length (store w) + length nodes)%nat
    ∧ (∀ other, other ∉ nodes →
         schedules (eng w') !! other = schedules (eng w) !! other)
    ∧ (∀ p s, store w !! p = Some s → store w' !! p = Some s)
    ∧ ∀ k n, nodes !! k = Some n →
        schedules (eng w') !! n = Some (length (store w) + k)%nat
        ∧ ∃ s, store w' !! (length (store w) + k)%nat = Some s
               ∧ when s = WhenNextSchedule (eng w) now + Z.of_nat k * period (eng w)
               ∧ tstate (timer s) = TimerArmed.
Proof.
  revert w. induction nodes as [|n ns IH]; intros w Hnd Hfree Hp.
  - exists w. split; [done|]. split; [cbn; lia|]. split; [done|]. split; [done|].
    intros k n Hk. by rewrite lookup_nil in Hk.
  - apply NoDup_cons in Hnd as [Hn Hnd].
    assert (Hm : schedules (eng w) !! n = None) by (apply Hfree; left).
    pose proof (Schedule_announced n now w Hm) as Hrun.
    set (w1 := announced n now w) in *.
    destruct (IH w1 Hnd) as (w' & Hall & Hlen & Hmap & Hobj & Hk); [|done|].
    { intros m Hmem. cbn. rewrite lookup_insert_ne by (by intros ->).
      apply Hfree. by right. }
    assert (Hlen1 : length (store w1) = S (length (store w))).
    { cbn -[WhenNextSchedule]. rewrite length_app. cbn. lia. }
    exists w'. split; [|split; [|split; [|split]]].
    + assert (Hrun' : run (OpSchedule n now None) w = Some (tt, w1))
        by (cbn -[Schedule]; by rewrite (run_bind _ _ _ _ _ Hrun)).
      rewrite fmap_cons.
      change ((run (OpSchedule n now None)
               ≫= λ _, runAll ((λ n, OpSchedule n now None) <$> ns)) w = Some (tt, w')).
      by rewrite (run_bind _ _ _ _ _ Hrun').
    + rewrite Hlen, Hlen1. cbn. lia.
    + intros other Hother. apply not_elem_of_cons in Hother as [Hne Hother].
      rewrite (Hmap other Hother). cbn. by rewrite lookup_insert_ne.
    + intros p s Hs. apply Hobj. cbn -[WhenNextSchedule].
      rewrite lookup_app_l; [done|by eapply lookup_lt_Some].
    + intros [|k] m Hlook.
      * injection Hlook as <-. rewrite Nat.add_0_r, (Hmap n Hn). cbn -[WhenNextSchedule].
        split; [apply lookup_insert_eq|].
        eexists. split; [apply Hobj, store_snoc_lookup|]. split; [cbn; lia|done].
      * cbn in Hlook. destruct (Hk k m Hlook) as (Hmk & s & Hs & Hwhen & Harmed).
        rewrite Hlen1 in Hmk, Hs.
        replace (length (store w) + S k)%nat with (S (length (store w)) + k)%nat by lia.
        split; [done|]. exists s. split; [done|]. split; [|done].
        rewrite Hwhen, (WhenNextSchedule_next (eng w) (eng w1) now); [|done..].
        unfold w1. cbn -[WhenNextSchedule]. lia.
Qed.

Lemma burst_is_staggered_witness :
  (NoDup ["nodeB"; "nodeC"; "nodeD"]
   ∧ (∀ n, n ∈ ["nodeB"; "nodeC"; "nodeD"] → schedules (eng worldPending) !! n = None)
   ∧ 0 ≤ period (eng worldPending))
  ∧ ∃ w',
    runAll ((λ n, OpSchedule n t0 None) <$> ["nodeB"; "nodeC"; "nodeD"]) worldPending
    = Some (tt, w')
    ∧ length (store w')
      = (length (store worldPending) + length ["nodeB"; "nodeC"; "nodeD"])%nat
    ∧ (∀ other, other ∉ ["nodeB"; "nodeC"; "nodeD"] →
         schedules (eng w') !! other = schedules (eng worldPending) !! other)
    ∧ (∀ p s, store worldPending !! p = Some s → store w' !! p = Some s)
    ∧ ∀ k n, ["nodeB"; "nodeC"; "nodeD"] !! k = Some n →
        schedules (eng w') !! n = Some (length (store worldPending) + k)%nat
        ∧ ∃ s, store w' !! (length (store worldPending) + k)%nat = Some s
               ∧ when s = WhenNextSchedule (eng worldPending) t0
                          + Z.of_nat k * period (eng worldPending)
               ∧ tstate (timer s) = TimerArmed.
Proof.
  assert (H1 : NoDup ["nodeB"; "nodeC"; "nodeD"]) by (by apply (bool_decide_unpack _)).
  assert (H2 : ∀ n, n ∈ ["nodeB"; "nodeC"; "nodeD"] →
                    schedules (eng worldPending) !! n = None).
  { intros n Hn. repeat (apply elem_of_cons in Hn as [->|Hn]; [vm_compute; reflexivity|]).
    by apply elem_of_nil in Hn. }
  assert (H3 : 0 ≤ period (eng worldPending)) by (vm_compute; discriminate).
  split; [done|].
  exact (burst_is_staggered ["nodeB"; "nodeC"; "nodeD"] t0 worldPending H1 H2 H3).
Defined.

(** ** [Schedule] and what happens during its announcement

    [Schedule] releases the mutex before it announces, so that between its
    locked section and its rollback the timers and the other callers take
    their steps. *)

Lemma steps_persists (σ σ' : System) (l : list action) (p : addr) (s : schedule) :
  steps σ l σ' →
  store (world σ) !! p = Some s →
  ∃ s', store (world σ') !! p = Some s' ∧ persists s s'.
Proof.
  intros Hsteps. revert s.
  induction Hsteps as [σ|σ a σ1 l σ2 Hstep Hsteps IH]; intros s Hs.
  - exists s. split; [done|apply persists_refl].
  - destruct (step_persists _ _ _ _ _ Hstep Hs) as (s1 & Hs1 & Hp1).
    destruct (IH s1 Hs1) as (s2 & Hs2 & Hp2).
    exists s2. split; [done|]. by apply (persists_trans s s1 s2).
Qed.













(** X3: the locked section of [Schedule], for a node without entry, makes a
    new object with the computed time, the zero [finish], the failed flag
    unset and a timer armed for that node and time, puts it in the map under
    the node and moves [lastDrainScheduledFor] to that time: when the mutex
    is released the queries see the node as scheduled, not failed and not an
    old event.  Whatever happens while the announcement is made, the object
    stays where it is, with that time and that node; and a [Schedule] whose
    announcement succeeds returns that time. *)
Theorem Schedule_creates_entry (w : World) (node : string) (now : time.Time) :
  schedules (eng w) !! node = None →
  ∃ t w1,
    ScheduleLocked node now w = Some (inr t, w1)
    ∧ t = WhenNextSchedule (eng w) now
    ∧ lastDrainScheduledFor (eng w1) = t
    ∧ schedules (eng w1) !! node = Some (length (store w))
    ∧ store w1 = store w ++ [mkSchedule t 0 time.zero (mkTimer TimerArmed node t)]
    ∧ trace w1 = trace w
    ∧ fst <$> HasSchedule node w1 = Some (true, false)
    ∧ (∀ t', IsScheduledByOldEvent node t' w1 = Some (false, w1))
    ∧ (∀ cb window σ,
         steps (mkSystem w1 cb) window σ →
         ∃ s, store (world σ) !! length (store w) = Some s
              ∧ when s = t ∧ fnode (timer s) = node ∧ fwhen (timer s) = t)
    ∧ fst <$> Schedule node now None w = Some (t, None).
Proof.
  intros Hm. exists (WhenNextSchedule (eng w) now), (scheduled node now w).
  split; [by apply ScheduleLocked_absent|].
  assert (Hm' : schedules (eng (scheduled node now w)) !! node = Some (length (store w)))
    by apply lookup_insert_eq.
  assert (Hs' : store (scheduled node now w) !! length (store w)
                = Some (mkSchedule (WhenNextSchedule (eng w) now) 0 time.zero
                          (mkTimer TimerArmed node (WhenNextSchedule (eng w) now))))
    by apply store_snoc_lookup.
  split; [done|]. split; [done|]. split; [done|]. split; [done|]. split; [done|].
  split; [by rewrite (HasSchedule_present _ _ _ _ Hm' Hs')|].
  split.
  { intros t'. rewrite (IsScheduledByOldEvent_present _ _ _ _ _ Hm' Hs').
    cbn. by rewrite andb_false_r. }
  split; [|by rewrite (Schedule_announced _ _ _ Hm)].
  intros cb window σ Hsteps.
  destruct (steps_persists _ _ _ _ _ Hsteps Hs') as (s & Hs & Hw & Hn & Hf & _).
  by exists s.
Qed.

Lemma Schedule_creates_entry_witness :
  schedules (eng worldPending) !! "nodeB" = None
  ∧ ∃ t w1,
    ScheduleLocked "nodeB" t0 worldPending = Some (inr t, w1)
    ∧ t = WhenNextSchedule (eng worldPending) t0
    ∧ lastDrainScheduledFor (eng w1) = t
    ∧ schedules (eng w1) !! "nodeB" = Some (length (store worldPending))
    ∧ store w1
      = store worldPending ++ [mkSchedule t 0 time.zero (mkTimer TimerArmed "nodeB" t)]
    ∧ trace w1 = trace worldPending
    ∧ fst <$> HasSchedule "nodeB" w1 = Some (true, false)
    ∧ (∀ t', IsScheduledByOldEvent "nodeB" t' w1 = Some (false, w1))
    ∧ (∀ cb window σ,
         steps (mkSystem w1 cb) window σ →
         ∃ s, store (world σ) !! length (store worldPending) = Some s
              ∧ when s = t ∧ fnode (timer s) = "nodeB" ∧ fwhen (timer s) = t)
    ∧ fst <$> Schedule "nodeB" t0 None worldPending = Some (t, None).
Proof.
  assert (Hm : schedules (eng worldPending) !! "nodeB" = None)
    by (vm_compute; reflexivity).
  split; [exact Hm|]. exact (Schedule_creates_entry worldPending "nodeB" t0 Hm).
Defined.
